(** * A model of the priority task scheduler of [cors_config.py]

    The scheduler ([TaskScheduler]) keeps a [queue.PriorityQueue] of
    [(priority, task)] pairs, a dictionary of running tasks, two bounded
    deques of finished work and a pool of worker threads which all run
    [worker_function].  The model below follows the Python text statement by
    statement: task objects live in a store and are shared by reference, the
    priority queue is the binary heap of CPython's [heapq], and the worker
    threads are interleaved at the granularity of the statements of
    [worker_function]: one step of a worker is one statement, so that every
    state between two statements of the source is a state of the model. *)

From stdpp Require Import gmap strings list fin_maps pretty.
From Stdlib Require Import ZArith Lia Ascii.

(** ** Task objects *)

(** The four values taken by [task.status]: ['pending'], ['running'],
    ['completed'] and ['failed']. *)
Inductive Status := Pending | Running | Completed | Failed.

Global Instance Status_eq_dec : EqDecision Status.
Proof. solve_decision. Defined.

(** Task objects are mutable and shared (the queue, the running dictionary
    and the local variable of a worker all point to the same object), so they
    are addressed by reference: the index of the object in the store. *)
Abbreviation ref := nat (only parsing).

(** The objects that callers pass as the [name] of a task.  [add_task]
    takes any object (lines 50-58 check nothing); the model has the strings,
    [None] and the integers. *)
Inductive PyValue :=
  | PyStr (s : string)
  | PyNone
  | PyInt (z : Z).

Global Instance PyValue_eq_dec : EqDecision PyValue.
Proof. solve_decision. Defined.

(** The value is a string. *)
Definition is_str (v : PyValue) : bool :=
  match v with
  | PyStr _ => true
  | _ => false
  end.

(** Timestamps ([time.time()]) are integers counting clock ticks. *)
Definition ticks_per_second : Z := 1000000.

(** [int(time.time())] *)
Definition int_time (t : Z) : Z := Z.quot t ticks_per_second.

Record Task := {
  task_id : string;
  name : PyValue;
  priority : Z;
  scheduled_time : Z;
  created_at : Z;
  started_at : option Z;
  completed_at : option Z;
  status : Status;
  result : option string;
  error : option string;
  retries : Z;
  max_retries : Z;
  worker_id : option nat;
}.

(** [Task.__init__]; [now] is the value of [time.time()].  A falsy
    [scheduled_time] ([None] or zero) is replaced by the current time. *)
Definition Task_init (task_id : string) (name : PyValue) (priority : Z)
    (scheduled_time : option Z) (now : Z) : Task :=
  {| task_id := task_id;
     name := name;
     priority := priority;
     scheduled_time :=
       match scheduled_time with
       | Some s => if decide (s = 0%Z) then now else s
       | None => now
       end;
     created_at := now;
     started_at := None;
     completed_at := None;
     status := Pending;
     result := None;
     error := None;
     retries := 0;
     max_retries := 3;
     worker_id := None |}.

(** Attribute assignments [task.f = v]. *)
Definition set_priority (v : Z) (t : Task) : Task :=
  {| task_id := task_id t; name := name t; priority := v;
     scheduled_time := scheduled_time t; created_at := created_at t;
     started_at := started_at t; completed_at := completed_at t;
     status := status t; result := result t; error := error t;
     retries := retries t; max_retries := max_retries t;
     worker_id := worker_id t |}.

Definition set_started_at (v : Z) (t : Task) : Task :=
  {| task_id := task_id t; name := name t; priority := priority t;
     scheduled_time := scheduled_time t; created_at := created_at t;
     started_at := Some v; completed_at := completed_at t;
     status := status t; result := result t; error := error t;
     retries := retries t; max_retries := max_retries t;
     worker_id := worker_id t |}.

Definition set_completed_at (v : Z) (t : Task) : Task :=
  {| task_id := task_id t; name := name t; priority := priority t;
     scheduled_time := scheduled_time t; created_at := created_at t;
     started_at := started_at t; completed_at := Some v;
     status := status t; result := result t; error := error t;
     retries := retries t; max_retries := max_retries t;
     worker_id := worker_id t |}.

Definition set_status (v : Status) (t : Task) : Task :=
  {| task_id := task_id t; name := name t; priority := priority t;
     scheduled_time := scheduled_time t; created_at := created_at t;
     started_at := started_at t; completed_at := completed_at t;
     status := v; result := result t; error := error t;
     retries := retries t; max_retries := max_retries t;
     worker_id := worker_id t |}.

Definition set_result (v : string) (t : Task) : Task :=
  {| task_id := task_id t; name := name t; priority := priority t;
     scheduled_time := scheduled_time t; created_at := created_at t;
     started_at := started_at t; completed_at := completed_at t;
     status := status t; result := Some v; error := error t;
     retries := retries t; max_retries := max_retries t;
     worker_id := worker_id t |}.

Definition set_error (v : string) (t : Task) : Task :=
  {| task_id := task_id t; name := name t; priority := priority t;
     scheduled_time := scheduled_time t; created_at := created_at t;
     started_at := started_at t; completed_at := completed_at t;
     status := status t; result := result t; error := Some v;
     retries := retries t; max_retries := max_retries t;
     worker_id := worker_id t |}.

Definition set_retries (v : Z) (t : Task) : Task :=
  {| task_id := task_id t; name := name t; priority := priority t;
     scheduled_time := scheduled_time t; created_at := created_at t;
     started_at := started_at t; completed_at := completed_at t;
     status := status t; result := result t; error := error t;
     retries := v; max_retries := max_retries t;
     worker_id := worker_id t |}.

Definition set_worker_id (v : nat) (t : Task) : Task :=
  {| task_id := task_id t; name := name t; priority := priority t;
     scheduled_time := scheduled_time t; created_at := created_at t;
     started_at := started_at t; completed_at := completed_at t;
     status := status t; result := result t; error := error t;
     retries := retries t; max_retries := max_retries t;
     worker_id := Some v |}.

(** The dictionary built by [Task.to_dict]. *)
Record TaskDict := {
  d_id : string;
  d_name : PyValue;
  d_priority : Z;
  d_scheduled : Z;
  d_status : Status;
  d_retries : Z;
  d_duration : option Z;
}.

(** Python truthiness of an optional timestamp: [None] and zero are falsy. *)
Definition truthy (o : option Z) : bool :=
  match o with
  | Some v => bool_decide (v ≠ 0%Z)
  | None => false
  end.

Definition to_dict (t : Task) : TaskDict :=
  {| d_id := task_id t;
     d_name := name t;
     d_priority := priority t;
     d_scheduled := scheduled_time t;
     d_status := status t;
     d_retries := retries t;
     d_duration :=
       if truthy (completed_at t) && truthy (started_at t) then
         match completed_at t, started_at t with
         | Some c, Some s => Some (c - s)%Z
         | _, _ => None
         end
       else None |}.

(** The entry appended to [completed_tasks]. *)
Record CompletedEntry := {
  c_task : TaskDict;
  c_result : string;
  c_worker : nat;
}.

(** [collections.deque(maxlen=n).append]: the new element goes to the right
    end and, once the deque is full, the oldest one is discarded. *)
Definition deque_append {A} (maxlen : nat) (d : list A) (x : A) : list A :=
  drop (length (d ++ [x]) - maxlen) (d ++ [x]).

(** ** The priority queue *)

(** Queue entries are the tuples [(priority, task)]. *)
Abbreviation entry := (Z * ref)%type (only parsing).

(** [Task.__lt__], on the objects the two references point to. *)
Definition task_lt (σ : list Task) (r1 r2 : ref) : bool :=
  match σ !! r1, σ !! r2 with
  | Some t1, Some t2 => bool_decide (priority t1 < priority t2)%Z
  | _, _ => false
  end.

(** Python's tuple comparison [a < b]: the first components decide unless
    they are equal; then the tasks are compared, and a task is equal only to
    itself (no [__eq__] is defined, so equality is identity). *)
Definition entry_lt (σ : list Task) (a b : entry) : bool :=
  if decide (a.1 = b.1) then
    if decide (a.2 = b.2) then false else task_lt σ a.2 b.2
  else bool_decide (a.1 < b.1)%Z.

(** [heapq._siftdown]: the loop moves the hole at [pos] towards [startpos]
    while [newitem] is smaller than the parent.  [pos] decreases at every
    turn, so [pos] turns are enough. *)
Fixpoint siftdown_loop (fuel : nat) (σ : list Task) (heap : list entry)
    (startpos pos : nat) (newitem : entry) : list entry * nat :=
  match fuel with
  | 0 => (heap, pos)
  | S fuel' =>
      if decide (startpos < pos) then
        let parentpos := (pos - 1) / 2 in
        match heap !! parentpos with
        | Some parent =>
            if entry_lt σ newitem parent then
              siftdown_loop fuel' σ (<[pos:=parent]> heap) startpos parentpos
                newitem
            else (heap, pos)
        | None => (heap, pos)
        end
      else (heap, pos)
  end.

Definition heapq_siftdown (σ : list Task) (heap : list entry)
    (startpos pos : nat) : list entry :=
  match heap !! pos with
  | Some newitem =>
      let '(heap', pos') := siftdown_loop pos σ heap startpos pos newitem in
      <[pos':=newitem]> heap'
  | None => heap
  end.

(** [heapq._siftup]: the hole at [pos] is moved down to a leaf, each time
    taking the smaller child, then [newitem] is sifted back from there. *)
Fixpoint siftup_loop (fuel : nat) (σ : list Task) (heap : list entry)
    (pos : nat) : list entry * nat :=
  match fuel with
  | 0 => (heap, pos)
  | S fuel' =>
      let childpos := 2 * pos + 1 in
      match heap !! childpos with
      | Some child =>
          let rightpos := childpos + 1 in
          let childpos' :=
            match heap !! rightpos with
            | Some rchild =>
                if negb (entry_lt σ child rchild) then rightpos else childpos
            | None => childpos
            end in
          match heap !! childpos' with
          | Some c => siftup_loop fuel' σ (<[pos:=c]> heap) childpos'
          | None => (heap, pos)
          end
      | None => (heap, pos)
      end
  end.

Definition heapq_siftup (σ : list Task) (heap : list entry) (pos : nat)
    : list entry :=
  match heap !! pos with
  | Some newitem =>
      let '(heap', pos') := siftup_loop (length heap) σ heap pos in
      heapq_siftdown σ (<[pos':=newitem]> heap') pos pos'
  | None => heap
  end.

(** [heapq.heappush] *)
Definition heappush (σ : list Task) (heap : list entry) (item : entry)
    : list entry :=
  heapq_siftdown σ (heap ++ [item]) 0 (length heap).

(** [heapq.heappop]; [None] stands for the [IndexError] on an empty heap. *)
Definition heappop (σ : list Task) (heap : list entry)
    : option (entry * list entry) :=
  match last heap with
  | None => None
  | Some lastelt =>
      let heap' := take (length heap - 1) heap in
      match heap' with
      | returnitem :: _ =>
          Some (returnitem, heapq_siftup σ (<[0:=lastelt]> heap') 0)
      | [] => Some (lastelt, heap')
      end
  end.

(** ** Task bodies *)

(** What a call of [execute_task] does: it returns a value, or raises an
    exception whose [str] is the message. *)
Inductive Outcome :=
  | Returns (value : string)
  | Raises (message : string).

(** A task body receives the task and the number drawn by the random
    generator during the call. *)
Abbreviation Handler := (Task → Z → Outcome) (only parsing).

(** The test [needle in haystack] on strings. *)
Fixpoint contains (needle haystack : string) : bool :=
  String.prefix needle haystack ||
  match haystack with
  | EmptyString => false
  | String _ rest => contains needle rest
  end.

(** [type(v).__name__] *)
Definition type_name (v : PyValue) : string :=
  match v with
  | PyStr _ => "str"
  | PyNone => "NoneType"
  | PyInt _ => "int"
  end.

(** [TaskScheduler.execute_task]: the built-in bodies, chosen by substring
    of the task name.  [rnd] is the value of [random.randint]; the sleeps
    only let time pass.  The first test, ['backup' in task_type] of line
    126, raises [TypeError] when the name is not a string.  The wording of
    the message is that of CPython 3.8 to 3.13 and differs in other
    versions; no property below depends on it. *)
Definition execute_task (task : Task) (rnd : Z) : Outcome :=
  match name task with
  | PyStr task_type =>
      if contains "backup" task_type then
        Returns ("Backup completed: " +:+ pretty rnd +:+ " MB")
      else if contains "cleanup" task_type then
        Returns ("Cleaned: " +:+ pretty rnd +:+ " files")
      else if contains "sync" task_type then
        Returns ("Synced: " +:+ pretty rnd +:+ " objects")
      else if contains "index" task_type then
        Returns ("Indexed: " +:+ pretty rnd +:+ " documents")
      else if contains "generate" task_type then
        Returns ("Generated: " +:+ pretty rnd +:+ " reports")
      else if contains "send" task_type then
        Returns ("Sent: " +:+ pretty rnd +:+ " notifications")
      else if contains "process" task_type then
        Returns ("Processed: " +:+ pretty rnd +:+ " webhooks")
      else if contains "archive" task_type then
        Returns ("Archived: " +:+ pretty rnd +:+ " files")
      else if contains "validate" task_type then
        Returns ("Validated: " +:+ pretty rnd +:+ " schemas")
      else if contains "compress" task_type then
        Returns ("Compressed: " +:+ pretty rnd +:+ " assets")
      else
        Returns ("Executed: " +:+ task_type)
  | task_type =>
      Raises ("argument of type '" +:+ type_name task_type +:+
              "' is not iterable")
  end.

(** ** Scheduler state *)

(** The exceptions that no handler of [worker_function] catches: the
    [KeyError] of the [del] of line 116 and the [ValueError] of
    [task_done] (line 118).  Either one ends the thread. *)
Inductive Uncaught := KeyError | ValueError.

(** Where a worker thread stands in [worker_function]: the statement it
    executes next, with its local variables [priority], [task], [result]
    and [e].  There is one program point per statement; the line numbers
    are those of [cors_config.py]. *)
Inductive pc :=
  | AtLoop                                  (* 76: while self.running *)
  | AtGet                                   (* 78: task_queue.get *)
  | AtEmpty                                 (* 120-121: except Empty: continue *)
  | AtCheck (priority : Z) (task : ref)     (* 80: scheduled_time > now ? *)
  | AtPutBack (priority : Z) (task : ref)   (* 81: task_queue.put *)
  | AtSleep                                 (* 82: time.sleep(0.1) *)
  | AtContinue                              (* 83: continue *)
  | AtMark (priority : Z) (task : ref)      (* 85: status = 'running' *)
  | AtStarted (priority : Z) (task : ref)   (* 86: started_at = time.time() *)
  | AtWorkerId (priority : Z) (task : ref)  (* 87: worker_id = worker_id *)
  | AtRegister (priority : Z) (task : ref)  (* 89: running_tasks[id] = task *)
  | AtExecute (priority : Z) (task : ref)   (* 92: execute_task(task) *)
  | AtComplete (priority : Z) (task : ref) (res : string)
                                            (* 93: status = 'completed' *)
  | AtCompletedAt (priority : Z) (task : ref) (res : string)
                                            (* 94: completed_at = time.time() *)
  | AtResult (priority : Z) (task : ref) (res : string)
                                            (* 95: task.result = result *)
  | AtAppend (priority : Z) (task : ref) (res : string)
                                            (* 97-101: completed_tasks.append *)
  | AtExcept (priority : Z) (task : ref) (e : string)
                                            (* 104: status = 'failed' *)
  | AtError (priority : Z) (task : ref) (e : string)
                                            (* 105: task.error = str(e) *)
  | AtRetries (priority : Z) (task : ref)   (* 106: task.retries += 1 *)
  | AtRetryTest (priority : Z) (task : ref) (* 108: retries < max_retries ? *)
  | AtLower (priority : Z) (task : ref)     (* 109: priority = max(1, ...) *)
  | AtRequeue (priority : Z) (task : ref)   (* 110: task_queue.put *)
  | AtGiveUp (priority : Z) (task : ref)    (* 112: failed_tasks.append *)
  | AtFinally (priority : Z) (task : ref)   (* 115: task_id in running_tasks ? *)
  | AtDel (priority : Z) (task : ref)       (* 116: del running_tasks[id] *)
  | AtTaskDone (priority : Z) (task : ref)  (* 118: task_queue.task_done *)
  | Exited                                  (* the loop has ended *)
  | Crashed (e : Uncaught).                 (* the thread has died *)

Record State := {
  task_queue : list entry;          (* the heap of the PriorityQueue *)
  unfinished_tasks : Z;             (* its count of unfinished tasks *)
  completed_tasks : list CompletedEntry;
  failed_tasks : list TaskDict;
  running_tasks : gmap string ref;
  running : bool;
  task_counter : Z;
  objects : list Task;              (* the Task objects created so far *)
  workers : list pc;                (* one entry per worker thread *)
  clock : Z;                        (* what time.time() returns *)
}.

Definition set_task_queue (v : list entry) (st : State) : State :=
  {| task_queue := v; unfinished_tasks := unfinished_tasks st;
     completed_tasks := completed_tasks st; failed_tasks := failed_tasks st;
     running_tasks := running_tasks st; running := running st;
     task_counter := task_counter st; objects := objects st;
     workers := workers st; clock := clock st |}.

Definition set_unfinished_tasks (v : Z) (st : State) : State :=
  {| task_queue := task_queue st; unfinished_tasks := v;
     completed_tasks := completed_tasks st; failed_tasks := failed_tasks st;
     running_tasks := running_tasks st; running := running st;
     task_counter := task_counter st; objects := objects st;
     workers := workers st; clock := clock st |}.

Definition set_completed_tasks (v : list CompletedEntry) (st : State)
    : State :=
  {| task_queue := task_queue st; unfinished_tasks := unfinished_tasks st;
     completed_tasks := v; failed_tasks := failed_tasks st;
     running_tasks := running_tasks st; running := running st;
     task_counter := task_counter st; objects := objects st;
     workers := workers st; clock := clock st |}.

Definition set_failed_tasks (v : list TaskDict) (st : State) : State :=
  {| task_queue := task_queue st; unfinished_tasks := unfinished_tasks st;
     completed_tasks := completed_tasks st; failed_tasks := v;
     running_tasks := running_tasks st; running := running st;
     task_counter := task_counter st; objects := objects st;
     workers := workers st; clock := clock st |}.

Definition set_running_tasks (v : gmap string ref) (st : State) : State :=
  {| task_queue := task_queue st; unfinished_tasks := unfinished_tasks st;
     completed_tasks := completed_tasks st; failed_tasks := failed_tasks st;
     running_tasks := v; running := running st;
     task_counter := task_counter st; objects := objects st;
     workers := workers st; clock := clock st |}.

Definition set_running (v : bool) (st : State) : State :=
  {| task_queue := task_queue st; unfinished_tasks := unfinished_tasks st;
     completed_tasks := completed_tasks st; failed_tasks := failed_tasks st;
     running_tasks := running_tasks st; running := v;
     task_counter := task_counter st; objects := objects st;
     workers := workers st; clock := clock st |}.

Definition set_task_counter (v : Z) (st : State) : State :=
  {| task_queue := task_queue st; unfinished_tasks := unfinished_tasks st;
     completed_tasks := completed_tasks st; failed_tasks := failed_tasks st;
     running_tasks := running_tasks st; running := running st;
     task_counter := v; objects := objects st;
     workers := workers st; clock := clock st |}.

Definition set_objects (v : list Task) (st : State) : State :=
  {| task_queue := task_queue st; unfinished_tasks := unfinished_tasks st;
     completed_tasks := completed_tasks st; failed_tasks := failed_tasks st;
     running_tasks := running_tasks st; running := running st;
     task_counter := task_counter st; objects := v;
     workers := workers st; clock := clock st |}.

Definition set_workers (v : list pc) (st : State) : State :=
  {| task_queue := task_queue st; unfinished_tasks := unfinished_tasks st;
     completed_tasks := completed_tasks st; failed_tasks := failed_tasks st;
     running_tasks := running_tasks st; running := running st;
     task_counter := task_counter st; objects := objects st;
     workers := v; clock := clock st |}.

Definition set_clock (v : Z) (st : State) : State :=
  {| task_queue := task_queue st; unfinished_tasks := unfinished_tasks st;
     completed_tasks := completed_tasks st; failed_tasks := failed_tasks st;
     running_tasks := running_tasks st; running := running st;
     task_counter := task_counter st; objects := objects st;
     workers := workers st; clock := v |}.

(** [TaskScheduler.__init__] followed by [start_workers] with
    [worker_count = n]: everything is empty and [n] threads stand at the head
    of the loop. *)
Definition initial_state (n : nat) : State :=
  {| task_queue := []; unfinished_tasks := 0;
     completed_tasks := []; failed_tasks := [];
     running_tasks := ∅; running := true;
     task_counter := 0; objects := [];
     workers := replicate n AtLoop; clock := 0 |}.

(** The default of [__init__]. *)
Definition worker_count : nat := 3.

(** [PriorityQueue.put]: push on the heap and count one more unfinished
    task; the queue is unbounded, so [put] never blocks. *)
Definition put (item : entry) (st : State) : State :=
  set_unfinished_tasks (unfinished_tasks st + 1)
    (set_task_queue (heappush (objects st) (task_queue st) item) st).

(** [task.f = v] on the object behind [r]. *)
Definition update_task (r : ref) (t : Task) (st : State) : State :=
  set_objects (<[r:=t]> (objects st)) st.

(** The worker thread [w] moves to another statement. *)
Definition goto (w : nat) (c : pc) (st : State) : State :=
  set_workers (<[w:=c]> (workers st)) st.

(** [f"task_{self.task_counter}_{int(time.time())}"] *)
Definition make_task_id (counter now : Z) : string :=
  "task_" +:+ pretty counter +:+ "_" +:+ pretty (int_time now).

(** [TaskScheduler.add_task]; the new object gets the next free reference.
    The caller executes lines 51-56 as one step: the counter and the new
    object are not visible to the workers before the [put] of line 56. *)
Definition add_task (name : PyValue) (priority delay : Z) (st : State)
    : string * State :=
  let counter := (task_counter st + 1)%Z in
  let task_id := make_task_id counter (clock st) in
  let scheduled_time := (clock st + delay)%Z in
  let task := Task_init task_id name priority (Some scheduled_time)
                (clock st) in
  let r := length (objects st) in
  (task_id,
   put (priority, r)
     (set_objects (objects st ++ [task]) (set_task_counter counter st))).

(** ** The worker loop *)

(** One statement of [TaskScheduler.worker_function] executed by the worker
    thread [w].  [execute_task] is the method reached through [self]: the
    built-in one above or a replacement installed by the caller.  [None]
    means that [w] cannot move (no such thread, thread ended). *)
Definition worker_function (execute_task : Handler) (w : nat) (rnd : Z)
    (st : State) : option State :=
  c ← workers st !! w;
  match c with
  | AtLoop =>
      if running st then Some (goto w AtGet st)
      else Some (goto w Exited st)
  | AtGet =>
      match heappop (objects st) (task_queue st) with
      | Some ((prio, task), q) =>
          Some (goto w (AtCheck prio task) (set_task_queue q st))
      | None => Some (goto w AtEmpty st)     (* get raises queue.Empty *)
      end
  | AtEmpty => Some (goto w AtLoop st)
  | AtCheck prio task =>
      t ← objects st !! task;
      if bool_decide (scheduled_time t > clock st)%Z then
        Some (goto w (AtPutBack prio task) st)
      else Some (goto w (AtMark prio task) st)
  | AtPutBack prio task =>
      Some (goto w AtSleep (put (prio, task) st))
  | AtSleep => Some (goto w AtContinue st)
  | AtContinue => Some (goto w AtLoop st)
  | AtMark prio task =>
      t ← objects st !! task;
      Some (goto w (AtStarted prio task)
              (update_task task (set_status Running t) st))
  | AtStarted prio task =>
      t ← objects st !! task;
      Some (goto w (AtWorkerId prio task)
              (update_task task (set_started_at (clock st) t) st))
  | AtWorkerId prio task =>
      t ← objects st !! task;
      Some (goto w (AtRegister prio task)
              (update_task task (set_worker_id w t) st))
  | AtRegister prio task =>
      t ← objects st !! task;
      Some (goto w (AtExecute prio task)
              (set_running_tasks (<[task_id t:=task]> (running_tasks st)) st))
  | AtExecute prio task =>
      t ← objects st !! task;
      match execute_task t rnd with
      | Returns res => Some (goto w (AtComplete prio task res) st)
      | Raises e => Some (goto w (AtExcept prio task e) st)
      end
  | AtComplete prio task res =>
      t ← objects st !! task;
      Some (goto w (AtCompletedAt prio task res)
              (update_task task (set_status Completed t) st))
  | AtCompletedAt prio task res =>
      t ← objects st !! task;
      Some (goto w (AtResult prio task res)
              (update_task task (set_completed_at (clock st) t) st))
  | AtResult prio task res =>
      t ← objects st !! task;
      Some (goto w (AtAppend prio task res)
              (update_task task (set_result res t) st))
  | AtAppend prio task res =>
      t ← objects st !! task;
      let item := {| c_task := to_dict t; c_result := res; c_worker := w |} in
      Some (goto w (AtFinally prio task)
              (set_completed_tasks
                 (deque_append 1000 (completed_tasks st) item) st))
  | AtExcept prio task e =>
      t ← objects st !! task;
      Some (goto w (AtError prio task e)
              (update_task task (set_status Failed t) st))
  | AtError prio task e =>
      t ← objects st !! task;
      Some (goto w (AtRetries prio task)
              (update_task task (set_error e t) st))
  | AtRetries prio task =>
      t ← objects st !! task;
      Some (goto w (AtRetryTest prio task)
              (update_task task (set_retries (retries t + 1) t) st))
  | AtRetryTest prio task =>
      t ← objects st !! task;
      if bool_decide (retries t < max_retries t)%Z then
        Some (goto w (AtLower prio task) st)
      else Some (goto w (AtGiveUp prio task) st)
  | AtLower prio task =>
      t ← objects st !! task;
      Some (goto w (AtRequeue prio task)
              (update_task task
                 (set_priority (Z.max 1 (priority t - 1)) t) st))
  | AtRequeue prio task =>
      Some (goto w (AtFinally prio task) (put (prio, task) st))
  | AtGiveUp prio task =>
      t ← objects st !! task;
      Some (goto w (AtFinally prio task)
              (set_failed_tasks
                 (deque_append 500 (failed_tasks st) (to_dict t)) st))
  | AtFinally prio task =>
      t ← objects st !! task;
      if bool_decide (is_Some (running_tasks st !! task_id t)) then
        Some (goto w (AtDel prio task) st)
      else Some (goto w (AtTaskDone prio task) st)
  | AtDel prio task =>
      t ← objects st !! task;
      (* del raises KeyError when another thread has removed the key *)
      if bool_decide (is_Some (running_tasks st !! task_id t)) then
        Some (goto w (AtTaskDone prio task)
                (set_running_tasks (delete (task_id t) (running_tasks st)) st))
      else Some (goto w (Crashed KeyError) st)
  | AtTaskDone prio task =>
      (* task_done raises ValueError when called too many times *)
      if bool_decide (unfinished_tasks st - 1 < 0)%Z then
        Some (goto w (Crashed ValueError) st)
      else
        Some (goto w AtLoop
                (set_unfinished_tasks (unfinished_tasks st - 1) st))
  | Exited | Crashed _ => None
  end.

(** [TaskScheduler.stop_workers]: the flag is cleared (the joins only wait). *)
Definition stop_workers (st : State) : State := set_running false st.

(** [TaskScheduler.get_stats], without the constant [workers] entry and the
    uptime. *)
Record Stats := {
  queue_size : nat;
  completed_count : nat;
  failed_count : nat;
  running_count : nat;
}.

Definition get_stats (st : State) : Stats :=
  {| queue_size := length (task_queue st);
     completed_count := length (completed_tasks st);
     failed_count := length (failed_tasks st);
     running_count := size (running_tasks st) |}.

(** ** Executions *)

(** What can happen next: time passes, a caller submits a task or stops the
    pool, or a worker thread executes its next statement. *)
Inductive event :=
  | Tick (dt : Z)
  | Submit (name : PyValue) (priority delay : Z)
  | Stop
  | Work (w : nat) (rnd : Z).

Definition step (execute_task : Handler) (st : State) (ev : event)
    : option State :=
  match ev with
  | Tick dt =>
      if bool_decide (0 ≤ dt)%Z then Some (set_clock (clock st + dt) st)
      else None
  | Submit name priority delay => Some (add_task name priority delay st).2
  | Stop => Some (stop_workers st)
  | Work w rnd => worker_function execute_task w rnd st
  end.

Fixpoint run (execute_task : Handler) (st : State) (evs : list event)
    : option State :=
  match evs with
  | [] => Some st
  | ev :: evs' => st' ← step execute_task st ev; run execute_task st' evs'
  end.

(** A state is reachable when some execution leads to it from the initial
    state of a pool of [n] workers. *)
Definition reachable (execute_task : Handler) (n : nat) (st : State) : Prop :=
  ∃ evs, run execute_task (initial_state n) evs = Some st.

(** * Properties *)

(** ** The heap operations permute the entries *)

Section heap.
Context (σ : list Task).
Implicit Types heap : list entry.

Lemma siftdown_loop_perm fuel heap startpos pos newitem heap' pos' :
  pos < length heap →
  siftdown_loop fuel σ heap startpos pos newitem = (heap', pos') →
  pos' < length heap' ∧ <[pos':=newitem]> heap' ≡ₚ <[pos:=newitem]> heap.
Proof.
  revert heap pos.
  induction fuel as [|fuel IH]; intros heap pos Hpos; cbn [siftdown_loop].
  { by intros [= <- <-]. }
  case_decide as Hlt; [|by intros [= <- <-]].
  assert ((pos - 1) / 2 < pos) as Hpar.
  { pose proof (Nat.Div0.div_le_upper_bound (pos - 1) 2 (pos - 1)). lia. }
  destruct (heap !! ((pos - 1) / 2)) as [parent|] eqn:Hparent;
    [|by intros [= <- <-]].
  destruct (entry_lt σ newitem parent); [|by intros [= <- <-]].
  intros Hloop. apply IH in Hloop as [? Hperm]; [|rewrite length_insert; lia].
  split; [done|]. rewrite Hperm.
  rewrite <-(list_insert_insert_eq heap pos parent newitem).
  apply Permutation_insert_swap.
  - by apply list_lookup_insert_eq.
  - rewrite list_lookup_insert_ne by lia. done.
Qed.

Lemma heapq_siftdown_perm heap startpos pos :
  heapq_siftdown σ heap startpos pos ≡ₚ heap.
Proof.
  unfold heapq_siftdown.
  destruct (heap !! pos) as [newitem|] eqn:Hpos; [|done].
  destruct (siftdown_loop _ _ _ _ _ _) as [heap' pos'] eqn:Hloop.
  apply siftdown_loop_perm in Hloop as [_ ->]; [|by eapply lookup_lt_Some].
  by rewrite list_insert_id.
Qed.

Lemma siftup_loop_perm fuel heap pos heap' pos' newitem :
  pos < length heap →
  siftup_loop fuel σ heap pos = (heap', pos') →
  pos' < length heap' ∧ <[pos':=newitem]> heap' ≡ₚ <[pos:=newitem]> heap.
Proof.
  revert heap pos.
  induction fuel as [|fuel IH]; intros heap pos Hpos; cbn [siftup_loop].
  { by intros [= <- <-]. }
  destruct (heap !! (2 * pos + 1)) as [child|] eqn:Hchild;
    [|by intros [= <- <-]].
  set (childpos' := match heap !! (2 * pos + 1 + 1) with
                    | Some rchild =>
                        if negb (entry_lt σ child rchild)
                        then 2 * pos + 1 + 1 else 2 * pos + 1
                    | None => 2 * pos + 1
                    end).
  assert (pos < childpos') as Hlt.
  { unfold childpos'. repeat case_match; lia. }
  destruct (heap !! childpos') as [c|] eqn:Hc; [|by intros [= <- <-]].
  intros Hloop. apply IH in Hloop as [? Hperm]; [|rewrite length_insert].
  - split; [done|]. rewrite Hperm.
    rewrite <-(list_insert_insert_eq heap pos c newitem).
    apply Permutation_insert_swap.
    + by apply list_lookup_insert_eq.
    + rewrite list_lookup_insert_ne by lia. done.
  - by eapply lookup_lt_Some.
Qed.

Lemma heapq_siftup_perm heap pos : heapq_siftup σ heap pos ≡ₚ heap.
Proof.
  unfold heapq_siftup.
  destruct (heap !! pos) as [newitem|] eqn:Hpos; [|done].
  destruct (siftup_loop _ _ _ _) as [heap' pos'] eqn:Hloop.
  eapply (siftup_loop_perm _ _ _ _ _ newitem) in Hloop as [_ Hperm];
    [|by eapply lookup_lt_Some].
  by rewrite heapq_siftdown_perm, Hperm, list_insert_id.
Qed.

Lemma heappush_perm heap item : heappush σ heap item ≡ₚ item :: heap.
Proof.
  unfold heappush. rewrite heapq_siftdown_perm.
  by rewrite Permutation_app_comm.
Qed.

(** [heappop] hands out the root of the heap, which is the first cell of
    the array, and keeps all the other entries. *)
Lemma heappop_Some heap item heap' :
  heappop σ heap = Some (item, heap') →
  head heap = Some item ∧ heap ≡ₚ item :: heap'.
Proof.
  unfold heappop. destruct (last heap) as [lastelt|] eqn:Hlast; [|done].
  apply last_Some in Hlast as [front ->].
  rewrite length_app, Nat.add_sub, take_app_length. simpl.
  destruct front as [|returnitem front]; intros [= <- <-]; [done|].
  split; [done|]. rewrite heapq_siftup_perm. simpl.
  f_equiv. by rewrite Permutation_app_comm.
Qed.

Lemma heappop_None heap : heappop σ heap = None → heap = [].
Proof.
  unfold heappop. destruct (last heap) eqn:Hlast.
  - by case_match.
  - intros _. by apply last_None.
Qed.
(** The two loops stop by their own tests: any fuel beyond the bound used
    by [heapq_siftdown] and [heapq_siftup] gives the same result. *)
Lemma siftdown_loop_fuel fuel1 fuel2 heap startpos pos newitem :
  pos ≤ fuel1 → pos ≤ fuel2 →
  siftdown_loop fuel1 σ heap startpos pos newitem
  = siftdown_loop fuel2 σ heap startpos pos newitem.
Proof.
  revert fuel2 heap pos.
  induction fuel1 as [|fuel1 IH]; intros [|fuel2] heap pos H1 H2;
    cbn [siftdown_loop]; try done.
  - case_decide; [lia|done].
  - case_decide; [lia|done].
  - case_decide as Hlt; [|done].
    destruct (heap !! ((pos - 1) / 2)) as [parent|]; [|done].
    destruct (entry_lt σ newitem parent); [|done].
    assert ((pos - 1) / 2 < pos).
    { pose proof (Nat.Div0.div_le_upper_bound (pos - 1) 2 (pos - 1)). lia. }
    apply IH; lia.
Qed.

Lemma siftup_loop_fuel fuel1 fuel2 heap pos :
  length heap - pos ≤ fuel1 → length heap - pos ≤ fuel2 →
  siftup_loop fuel1 σ heap pos = siftup_loop fuel2 σ heap pos.
Proof.
  revert fuel2 heap pos.
  induction fuel1 as [|fuel1 IH]; intros [|fuel2] heap pos H1 H2;
    cbn [siftup_loop]; try done.
  - rewrite (lookup_ge_None_2 heap (2 * pos + 1)) by lia. done.
  - rewrite (lookup_ge_None_2 heap (2 * pos + 1)) by lia. done.
  - destruct (heap !! (2 * pos + 1)) as [child|] eqn:Hchild; [|done].
    set (childpos' := match heap !! (2 * pos + 1 + 1) with
                      | Some rchild =>
                          if negb (entry_lt σ child rchild)
                          then 2 * pos + 1 + 1 else 2 * pos + 1
                      | None => 2 * pos + 1
                      end).
    assert (pos < childpos') as Hlt.
    { unfold childpos'. repeat case_match; lia. }
    destruct (heap !! childpos') as [c|] eqn:Hc; [|done].
    apply lookup_lt_Some in Hc.
    apply IH; rewrite length_insert; lia.
Qed.

End heap.

(** ** Task identifiers are unique *)

(** All the characters of a string satisfy [P]. *)
Fixpoint string_Forall (P : ascii → Prop) (s : string) : Prop :=
  match s with
  | EmptyString => True
  | String c s' => P c ∧ string_Forall P s'
  end.

Lemma pretty_N_go_Forall (P : ascii → Prop) (x : N) (s : string) :
  (∀ d, P (pretty_N_char d)) →
  string_Forall P s → string_Forall P (pretty_N_go x s).
Proof.
  intros Hdigit. revert s.
  induction (N.lt_wf_0 x) as [x _ IH]; intros s Hs.
  destruct (decide (x = 0)%N) as [->|].
  - by rewrite pretty_N_go_0.
  - rewrite pretty_N_go_step by lia.
    apply IH; [apply N.div_lt; lia|]. by split.
Qed.

Lemma pretty_N_Forall (P : ascii → Prop) (x : N) :
  (∀ d, P (pretty_N_char d)) → string_Forall P (pretty x).
Proof.
  intros Hdigit. unfold pretty, pretty_N. case_decide.
  - split; [apply (Hdigit 0%N)|done].
  - by apply pretty_N_go_Forall.
Qed.

Lemma pretty_Z_no_underscore (z : Z) :
  string_Forall (λ c, c ≠ "_"%char) (pretty z).
Proof.
  assert (∀ d, pretty_N_char d ≠ "_"%char) as Hdigit.
  { intros d. unfold pretty_N_char. by repeat case_match. }
  destruct z as [|x|x]; unfold pretty, pretty_Z.
  - by split.
  - by apply pretty_N_Forall.
  - split; [done|]. by apply pretty_N_Forall.
Qed.

(** Two strings without the separator that are followed by the separator
    and agree as a whole are the same string. *)
Lemma append_separator_inj (s1 s2 r1 r2 : string) :
  string_Forall (λ c, c ≠ "_"%char) s1 →
  string_Forall (λ c, c ≠ "_"%char) s2 →
  s1 +:+ String "_" r1 = s2 +:+ String "_" r2 → s1 = s2.
Proof.
  revert s2. induction s1 as [|c s1 IH]; intros [|c' s2]; simpl.
  - done.
  - intros _ [Hc _] [= <- _]. done.
  - intros [Hc _] _ [= -> _]. done.
  - intros [_ H1] [_ H2] [= -> Heq]. f_equal. by apply IH.
Qed.

Lemma make_task_id_inj (c1 c2 t1 t2 : Z) :
  make_task_id c1 t1 = make_task_id c2 t2 → c1 = c2.
Proof.
  unfold make_task_id. intros [= Heq].
  apply append_separator_inj in Heq; auto using pretty_Z_no_underscore.
  by apply (inj pretty).
Qed.

(** ** The invariant of the scheduler *)

(** The task in the local variable [task] of a worker. *)
Definition holds (c : pc) : option ref :=
  match c with
  | AtCheck _ r | AtPutBack _ r | AtMark _ r | AtStarted _ r
  | AtWorkerId _ r | AtRegister _ r | AtExecute _ r
  | AtComplete _ r _ | AtCompletedAt _ r _ | AtResult _ r _
  | AtAppend _ r _ | AtExcept _ r _ | AtError _ r _ | AtRetries _ r
  | AtRetryTest _ r | AtLower _ r | AtRequeue _ r | AtGiveUp _ r
  | AtFinally _ r | AtDel _ r | AtTaskDone _ r => Some r
  | AtLoop | AtGet | AtEmpty | AtSleep | AtContinue | Exited
  | Crashed _ => None
  end.

(** The worker has taken the task out of the queue and has neither put it
    back nor finished the attempt: nobody else can touch the task. *)
Definition owns (c : pc) : option ref :=
  match c with
  | AtFinally _ _ | AtDel _ _ | AtTaskDone _ _ => None
  | _ => holds c
  end.

(** The worker has entered the task in [running_tasks] (line 89) and has
    not yet left its [finally] block. *)
Definition registered (c : pc) : option ref :=
  match c with
  | AtExecute _ r | AtComplete _ r _ | AtCompletedAt _ r _ | AtResult _ r _
  | AtAppend _ r _ | AtExcept _ r _ | AtError _ r _ | AtRetries _ r
  | AtRetryTest _ r | AtLower _ r | AtRequeue _ r | AtGiveUp _ r
  | AtFinally _ r | AtDel _ r => Some r
  | _ => None
  end.

(** A task that waits for an attempt: fresh, or failed fewer than
    [max_retries] times. *)
Definition waiting (t : Task) : Prop :=
  (retries t = 0 ∧ status t = Pending)%Z ∨
  (0 < retries t < max_retries t ∧ status t = Failed)%Z.

(** A task that will not be attempted again. *)
Definition finished (t : Task) : Prop :=
  (status t = Completed ∧ 0 ≤ retries t < max_retries t)%Z ∨
  (status t = Failed ∧ retries t = max_retries t)%Z.

(** What the owner of a task knows about it at each statement. *)
Definition pc_ok (c : pc) (t : Task) : Prop :=
  match c with
  | AtCheck _ _ | AtPutBack _ _ | AtMark _ _ => waiting t
  | AtStarted _ _ | AtWorkerId _ _ | AtRegister _ _ | AtExecute _ _
  | AtComplete _ _ _ | AtExcept _ _ _ =>
      (status t = Running ∧ 0 ≤ retries t < max_retries t)%Z
  | AtCompletedAt _ _ _ | AtResult _ _ _ | AtAppend _ _ _ =>
      (status t = Completed ∧ 0 ≤ retries t < max_retries t)%Z
  | AtError _ _ _ | AtRetries _ _ =>
      (status t = Failed ∧ 0 ≤ retries t < max_retries t)%Z
  | AtRetryTest _ _ => (status t = Failed ∧ 0 < retries t ≤ max_retries t)%Z
  | AtLower _ _ | AtRequeue _ _ =>
      (status t = Failed ∧ 0 < retries t < max_retries t)%Z
  | AtGiveUp _ _ => (status t = Failed ∧ retries t = max_retries t)%Z
  | _ => True
  end.

Record Inv (st : State) : Prop := {
  inv_counter : task_counter st = Z.of_nat (length (objects st));
  inv_ids : ∀ r t, objects st !! r = Some t →
    max_retries t = 3%Z ∧
    ∃ now, task_id t = make_task_id (Z.of_nat r + 1) now;
  inv_queue_wf : ∀ r, r ∈ (task_queue st).*2 → r < length (objects st);
  inv_workers_wf : ∀ w c r,
    workers st !! w = Some c → holds c = Some r → r < length (objects st);
  inv_queue_nodup : NoDup (task_queue st).*2;
  inv_owner_unique : ∀ w1 w2 c1 c2 r,
    workers st !! w1 = Some c1 → workers st !! w2 = Some c2 →
    owns c1 = Some r → owns c2 = Some r → w1 = w2;
  inv_owner_queue : ∀ w c r,
    workers st !! w = Some c → owns c = Some r → r ∉ (task_queue st).*2;
  inv_running : ∀ id r, running_tasks st !! id = Some r →
    (∃ t, objects st !! r = Some t ∧ task_id t = id) ∧
    (∃ w c, workers st !! w = Some c ∧ registered c = Some r);
  inv_queue_ok : ∀ r t,
    r ∈ (task_queue st).*2 → objects st !! r = Some t → waiting t;
  inv_owner_ok : ∀ w c r t,
    workers st !! w = Some c → owns c = Some r →
    objects st !! r = Some t → pc_ok c t;
  inv_idle_ok : ∀ r t,
    objects st !! r = Some t → r ∉ (task_queue st).*2 →
    (∀ w c, workers st !! w = Some c → owns c ≠ Some r) → finished t;
}.

Lemma Inv_initial n : Inv (initial_state n).
Proof.
  split; simpl.
  - done.
  - done.
  - by intros r ?%elem_of_nil.
  - by intros w c r [-> _]%lookup_replicate.
  - constructor.
  - by intros w1 w2 c1 c2 r [-> _]%lookup_replicate.
  - intros w c r _ _. apply not_elem_of_nil.
  - done.
  - by intros r t ?%elem_of_nil.
  - by intros w c r t [-> _]%lookup_replicate.
  - done.
Qed.

(** *** Submitting a task *)

Lemma add_task_queue nm p d st :
  (task_queue (add_task nm p d st).2).*2
  ≡ₚ length (objects st) :: (task_queue st).*2.
Proof. simpl. by rewrite heappush_perm. Qed.

Lemma Inv_add_task nm p d st : Inv st → Inv (add_task nm p d st).2.
Proof.
  intros [Hcnt Hids Hqwf Hwwf Hnodup Huniq Hoq Hrun Hqok Hook Hidle].
  assert (∀ w c, workers st !! w = Some c →
                 owns c ≠ Some (length (objects st))) as Hfresh.
  { intros w c Hw Hown. assert (holds c = Some (length (objects st))) as Hh.
    { by destruct c; simplify_eq/=. }
    specialize (Hwwf _ _ _ Hw Hh). lia. }
  split.
  - simpl. rewrite length_app. simpl. lia.
  - simpl. intros r t [Hr|[Hle Ht]]%lookup_app_Some; [by eauto|].
    apply list_lookup_singleton_Some in Ht as [Hr <-]. simpl. split; [done|].
    exists (clock st). f_equal. lia.
  - intros r. rewrite add_task_queue. simpl. rewrite length_app. simpl.
    intros [->|Hr%Hqwf]%elem_of_cons; lia.
  - simpl. intros w c r Hw Hh. rewrite length_app.
    specialize (Hwwf _ _ _ Hw Hh). lia.
  - rewrite add_task_queue. apply NoDup_cons. split; [|done].
    intros Hin%Hqwf. lia.
  - done.
  - intros w c r Hw Hown. rewrite add_task_queue.
    apply not_elem_of_cons. split; [|by eauto].
    intros ->. by eapply Hfresh.
  - simpl. intros id r [[t [Ht Hid]] Hreg]%Hrun. split; [|done].
    exists t. split; [|done]. by apply lookup_app_l_Some.
  - intros r t. rewrite add_task_queue. simpl.
    intros [->|Hr]%elem_of_cons.
    + rewrite lookup_app_r, Nat.sub_diag by lia. intros [= <-]. by left.
    + rewrite lookup_app_l by eauto. by apply Hqok.
  - simpl. intros w c r t Hw Hown.
    assert (holds c = Some r) as Hh by (by destruct c; simplify_eq/=).
    rewrite lookup_app_l by eauto. by eapply Hook.
  - intros r t. rewrite add_task_queue. simpl.
    intros [Hr|[Hle Ht]]%lookup_app_Some.
    + intros [_ ?]%not_elem_of_cons ?. by eapply Hidle.
    + apply list_lookup_singleton_Some in Ht as [Hr _].
      intros []%not_elem_of_cons. lia.
Qed.

(** *** The statements of the worker loop as a relation *)

(** The same transitions as [worker_function], one rule per branch. *)
Inductive worker_step (h : Handler) (w : nat) (rnd : Z) (st : State)
    : State → Prop :=
  | ws_loop :
      workers st !! w = Some AtLoop → running st = true →
      worker_step h w rnd st (goto w AtGet st)
  | ws_exit :
      workers st !! w = Some AtLoop → running st = false →
      worker_step h w rnd st (goto w Exited st)
  | ws_get p r q :
      workers st !! w = Some AtGet →
      heappop (objects st) (task_queue st) = Some ((p, r), q) →
      worker_step h w rnd st (goto w (AtCheck p r) (set_task_queue q st))
  | ws_get_empty :
      workers st !! w = Some AtGet →
      heappop (objects st) (task_queue st) = None →
      worker_step h w rnd st (goto w AtEmpty st)
  | ws_empty :
      workers st !! w = Some AtEmpty →
      worker_step h w rnd st (goto w AtLoop st)
  | ws_check_early p r t :
      workers st !! w = Some (AtCheck p r) → objects st !! r = Some t →
      (scheduled_time t > clock st)%Z →
      worker_step h w rnd st (goto w (AtPutBack p r) st)
  | ws_check_due p r t :
      workers st !! w = Some (AtCheck p r) → objects st !! r = Some t →
      (scheduled_time t ≤ clock st)%Z →
      worker_step h w rnd st (goto w (AtMark p r) st)
  | ws_put_back p r :
      workers st !! w = Some (AtPutBack p r) →
      worker_step h w rnd st (goto w AtSleep (put (p, r) st))
  | ws_sleep :
      workers st !! w = Some AtSleep →
      worker_step h w rnd st (goto w AtContinue st)
  | ws_continue :
      workers st !! w = Some AtContinue →
      worker_step h w rnd st (goto w AtLoop st)
  | ws_mark p r t :
      workers st !! w = Some (AtMark p r) → objects st !! r = Some t →
      worker_step h w rnd st
        (goto w (AtStarted p r) (update_task r (set_status Running t) st))
  | ws_started p r t :
      workers st !! w = Some (AtStarted p r) → objects st !! r = Some t →
      worker_step h w rnd st
        (goto w (AtWorkerId p r)
           (update_task r (set_started_at (clock st) t) st))
  | ws_worker_id p r t :
      workers st !! w = Some (AtWorkerId p r) → objects st !! r = Some t →
      worker_step h w rnd st
        (goto w (AtRegister p r) (update_task r (set_worker_id w t) st))
  | ws_register p r t :
      workers st !! w = Some (AtRegister p r) → objects st !! r = Some t →
      worker_step h w rnd st
        (goto w (AtExecute p r)
           (set_running_tasks (<[task_id t:=r]> (running_tasks st)) st))
  | ws_execute_returns p r t res :
      workers st !! w = Some (AtExecute p r) → objects st !! r = Some t →
      h t rnd = Returns res →
      worker_step h w rnd st (goto w (AtComplete p r res) st)
  | ws_execute_raises p r t e :
      workers st !! w = Some (AtExecute p r) → objects st !! r = Some t →
      h t rnd = Raises e →
      worker_step h w rnd st (goto w (AtExcept p r e) st)
  | ws_complete p r t res :
      workers st !! w = Some (AtComplete p r res) →
      objects st !! r = Some t →
      worker_step h w rnd st
        (goto w (AtCompletedAt p r res)
           (update_task r (set_status Completed t) st))
  | ws_completed_at p r t res :
      workers st !! w = Some (AtCompletedAt p r res) →
      objects st !! r = Some t →
      worker_step h w rnd st
        (goto w (AtResult p r res)
           (update_task r (set_completed_at (clock st) t) st))
  | ws_result p r t res :
      workers st !! w = Some (AtResult p r res) →
      objects st !! r = Some t →
      worker_step h w rnd st
        (goto w (AtAppend p r res) (update_task r (set_result res t) st))
  | ws_append p r t res :
      workers st !! w = Some (AtAppend p r res) →
      objects st !! r = Some t →
      worker_step h w rnd st
        (goto w (AtFinally p r)
           (set_completed_tasks
              (deque_append 1000 (completed_tasks st)
                 {| c_task := to_dict t; c_result := res; c_worker := w |})
              st))
  | ws_except p r t e :
      workers st !! w = Some (AtExcept p r e) → objects st !! r = Some t →
      worker_step h w rnd st
        (goto w (AtError p r e) (update_task r (set_status Failed t) st))
  | ws_error p r t e :
      workers st !! w = Some (AtError p r e) → objects st !! r = Some t →
      worker_step h w rnd st
        (goto w (AtRetries p r) (update_task r (set_error e t) st))
  | ws_retries p r t :
      workers st !! w = Some (AtRetries p r) → objects st !! r = Some t →
      worker_step h w rnd st
        (goto w (AtRetryTest p r)
           (update_task r (set_retries (retries t + 1) t) st))
  | ws_retry p r t :
      workers st !! w = Some (AtRetryTest p r) → objects st !! r = Some t →
      (retries t < max_retries t)%Z →
      worker_step h w rnd st (goto w (AtLower p r) st)
  | ws_no_retry p r t :
      workers st !! w = Some (AtRetryTest p r) → objects st !! r = Some t →
      ¬ (retries t < max_retries t)%Z →
      worker_step h w rnd st (goto w (AtGiveUp p r) st)
  | ws_lower p r t :
      workers st !! w = Some (AtLower p r) → objects st !! r = Some t →
      worker_step h w rnd st
        (goto w (AtRequeue p r)
           (update_task r (set_priority (Z.max 1 (priority t - 1)) t) st))
  | ws_requeue p r :
      workers st !! w = Some (AtRequeue p r) →
      worker_step h w rnd st (goto w (AtFinally p r) (put (p, r) st))
  | ws_give_up p r t :
      workers st !! w = Some (AtGiveUp p r) → objects st !! r = Some t →
      worker_step h w rnd st
        (goto w (AtFinally p r)
           (set_failed_tasks
              (deque_append 500 (failed_tasks st) (to_dict t)) st))
  | ws_finally_in p r t :
      workers st !! w = Some (AtFinally p r) → objects st !! r = Some t →
      is_Some (running_tasks st !! task_id t) →
      worker_step h w rnd st (goto w (AtDel p r) st)
  | ws_finally_skip p r t :
      workers st !! w = Some (AtFinally p r) → objects st !! r = Some t →
      running_tasks st !! task_id t = None →
      worker_step h w rnd st (goto w (AtTaskDone p r) st)
  | ws_del p r t :
      workers st !! w = Some (AtDel p r) → objects st !! r = Some t →
      is_Some (running_tasks st !! task_id t) →
      worker_step h w rnd st
        (goto w (AtTaskDone p r)
           (set_running_tasks (delete (task_id t) (running_tasks st)) st))
  | ws_del_error p r t :
      workers st !! w = Some (AtDel p r) → objects st !! r = Some t →
      running_tasks st !! task_id t = None →
      worker_step h w rnd st (goto w (Crashed KeyError) st)
  | ws_task_done p r :
      workers st !! w = Some (AtTaskDone p r) →
      ¬ (unfinished_tasks st - 1 < 0)%Z →
      worker_step h w rnd st
        (goto w AtLoop (set_unfinished_tasks (unfinished_tasks st - 1) st))
  | ws_task_done_error p r :
      workers st !! w = Some (AtTaskDone p r) →
      (unfinished_tasks st - 1 < 0)%Z →
      worker_step h w rnd st (goto w (Crashed ValueError) st).

(** The case analysis of a step, with the same names in every proof: [pk]
    and [tr] are the local variables [priority] and [task] of the worker,
    [tk] is the task object, [Hwk] says where the worker stands and [Hc]
    is the test of the branch. *)
Ltac step_cases H :=
  destruct H as
    [Hwk Hc|Hwk Hc|pk tr q' Hwk Hc|Hwk Hc|Hwk
    |pk tr tk Hwk Htk Hc|pk tr tk Hwk Htk Hc|pk tr Hwk|Hwk|Hwk
    |pk tr tk Hwk Htk|pk tr tk Hwk Htk|pk tr tk Hwk Htk|pk tr tk Hwk Htk
    |pk tr tk res Hwk Htk Hc|pk tr tk err Hwk Htk Hc
    |pk tr tk res Hwk Htk|pk tr tk res Hwk Htk|pk tr tk res Hwk Htk
    |pk tr tk res Hwk Htk
    |pk tr tk err Hwk Htk|pk tr tk err Hwk Htk|pk tr tk Hwk Htk
    |pk tr tk Hwk Htk Hc|pk tr tk Hwk Htk Hc|pk tr tk Hwk Htk|pk tr Hwk
    |pk tr tk Hwk Htk
    |pk tr tk Hwk Htk Hc|pk tr tk Hwk Htk Hc
    |pk tr tk Hwk Htk Hc|pk tr tk Hwk Htk Hc
    |pk tr Hwk Hc|pk tr Hwk Hc].

Lemma worker_function_step h w rnd st st' :
  worker_function h w rnd st = Some st' → worker_step h w rnd st st'.
Proof.
  unfold worker_function. intros Hstep.
  destruct (workers st !! w) as [c|] eqn:Hc; [|done]. simpl in Hstep.
  destruct c; try done;
    repeat match type of Hstep with
    | context [objects st !! ?r] =>
        destruct (objects st !! r) as [t|] eqn:Ht; [|done]; simpl in Hstep
    end;
    try (simplify_eq; by econstructor).
  - destruct (running st) eqn:?; simplify_eq; by constructor.
  - destruct (heappop _ _) as [[[p r] q]|] eqn:?; simplify_eq;
      by constructor.
  - case_bool_decide; simplify_eq; econstructor; eauto; lia.
  - destruct (h t rnd) eqn:?; simplify_eq; by econstructor.
  - case_bool_decide; simplify_eq; by econstructor.
  - case_bool_decide as Hin; simplify_eq; econstructor; eauto.
    by apply eq_None_not_Some.
  - case_bool_decide as Hin; simplify_eq; econstructor; eauto.
    by apply eq_None_not_Some.
  - case_bool_decide; simplify_eq; by econstructor.
Qed.

Lemma worker_step_function h w rnd st st' :
  worker_step h w rnd st st' → worker_function h w rnd st = Some st'.
Proof.
  unfold worker_function.
  destruct 1;
    repeat match goal with
    | H : _ !! _ = _ |- _ => rewrite H; clear H; simpl
    | H : running _ = _ |- _ => rewrite H
    | H : heappop _ _ = _ |- _ => rewrite H
    | H : h _ _ = _ |- _ => rewrite H
    end; try done; try (by rewrite bool_decide_eq_true_2 by lia);
    try (by rewrite bool_decide_eq_false_2 by lia);
    try (by rewrite bool_decide_eq_true_2);
    by rewrite bool_decide_eq_false_2 by (by intros [? ?]).
Qed.

(** *** The invariant is kept by the five kinds of statements

    A statement of the worker keeps the task it owns, releases it for
    good, puts it back into the queue, takes one out of the queue, or
    touches no task at all. *)

Lemma owns_holds c r : owns c = Some r → holds c = Some r.
Proof. by destruct c. Qed.

Lemma registered_holds c r : registered c = Some r → holds c = Some r.
Proof. by destruct c. Qed.

Local Ltac split_worker H :=
  apply list_lookup_insert_Some in H as [(<- & <- & ?)|[? H]].

(** The owner of [r] keeps the task and may assign to it. *)
Lemma Inv_own st st' w c c' r t t' :
  Inv st →
  workers st !! w = Some c → owns c = Some r →
  owns c' = Some r →
  (registered c = Some r → registered c' = Some r) →
  objects st !! r = Some t →
  task_id t' = task_id t → max_retries t' = max_retries t → pc_ok c' t' →
  task_counter st' = task_counter st →
  task_queue st' = task_queue st →
  objects st' = <[r:=t']> (objects st) →
  workers st' = <[w:=c']> (workers st) →
  (∀ id r0, running_tasks st' !! id = Some r0 →
     running_tasks st !! id = Some r0 ∨
     (id = task_id t ∧ r0 = r ∧ registered c' = Some r)) →
  Inv st'.
Proof.
  intros [Hcnt Hids Hqwf Hwwf Hnodup Huniq Hoq Hrun Hqok Hook Hidle]
    Hw Hown Hown' Hreg Ht Hid Hmax Hok Ecnt Eq Eobj Ew Erun.
  assert (r < length (objects st)) as Hr by (by eapply lookup_lt_Some).
  assert (w < length (workers st)) as Hwlt by (by eapply lookup_lt_Some).
  split; rewrite ?Ecnt, ?Eq, ?Eobj, ?Ew, ?length_insert; try done.
  - intros r0 t0 [(<- & <- & _)|[? Hr0]]%list_lookup_insert_Some; [|by eauto].
    rewrite Hid, Hmax. by eauto.
  - intros w0 c0 r0 Hw0 Hh. split_worker Hw0; [|by eauto].
    apply owns_holds in Hown'. by simplify_eq.
  - intros w1 w2 c1 c2 r0 Hw1 Hw2 Ho1 Ho2.
    split_worker Hw1; split_worker Hw2; simplify_eq; eauto.
  - intros w0 c0 r0 Hw0 Ho. split_worker Hw0; simplify_eq; eauto.
  - intros id r0 [Hin|(-> & -> & Hr')]%Erun.
    + apply Hrun in Hin as [(t0 & Ht0 & Hid0) (w0 & c0 & Hw0 & Hc0)]. split.
      * destruct (decide (r0 = r)) as [->|].
        -- exists t'. rewrite list_lookup_insert_eq by done. by simplify_eq.
        -- exists t0. by rewrite list_lookup_insert_ne.
      * destruct (decide (w0 = w)) as [->|].
        -- exists w, c'. rewrite list_lookup_insert_eq by done.
           simplify_eq. apply registered_holds in Hc0 as Hh.
           apply owns_holds in Hown. simplify_eq. eauto.
        -- exists w0, c0. by rewrite list_lookup_insert_ne.
    + split.
      * exists t'. by rewrite list_lookup_insert_eq.
      * exists w, c'. by rewrite list_lookup_insert_eq.
  - intros r0 t0 Hin Ht0.
    apply list_lookup_insert_Some in Ht0 as [(<- & <- & _)|[? Ht0]];
      [|by eauto].
    by destruct (Hoq _ _ _ Hw Hown).
  - intros w0 c0 r0 t0 Hw0 Ho Ht0. split_worker Hw0.
    + simplify_eq. rewrite list_lookup_insert_eq in Ht0 by done.
      by simplify_eq.
    + assert (r0 ≠ r) by (intros ->; eauto).
      rewrite list_lookup_insert_ne in Ht0 by done. eauto.
  - intros r0 t0 Ht0 Hin Hnone.
    destruct (decide (r0 = r)) as [->|].
    { destruct (Hnone w c'); [by rewrite list_lookup_insert_eq|done]. }
    rewrite list_lookup_insert_ne in Ht0 by done.
    eapply Hidle; [done..|]. intros w0 c0 Hw0 Ho.
    destruct (decide (w0 = w)) as [->|]; [by simplify_eq|].
    eapply (Hnone w0 c0); [|done]. by rewrite list_lookup_insert_ne.
Qed.

(** The owner of [r] ends the life of the task. *)
Lemma Inv_release st st' w c c' r t t' :
  Inv st →
  workers st !! w = Some c → owns c = Some r →
  owns c' = None → holds c' = Some r →
  (registered c = Some r → registered c' = Some r) →
  objects st !! r = Some t →
  task_id t' = task_id t → max_retries t' = max_retries t → finished t' →
  task_counter st' = task_counter st →
  task_queue st' = task_queue st →
  objects st' = <[r:=t']> (objects st) →
  workers st' = <[w:=c']> (workers st) →
  running_tasks st' = running_tasks st →
  Inv st'.
Proof.
  intros [Hcnt Hids Hqwf Hwwf Hnodup Huniq Hoq Hrun Hqok Hook Hidle]
    Hw Hown Hown' Hh' Hreg Ht Hid Hmax Hfin Ecnt Eq Eobj Ew Erun.
  assert (r < length (objects st)) as Hr by (by eapply lookup_lt_Some).
  assert (w < length (workers st)) as Hwlt by (by eapply lookup_lt_Some).
  split; rewrite ?Ecnt, ?Eq, ?Eobj, ?Ew, ?Erun, ?length_insert; try done.
  - intros r0 t0 [(<- & <- & _)|[? Hr0]]%list_lookup_insert_Some; [|by eauto].
    rewrite Hid, Hmax. by eauto.
  - intros w0 c0 r0 Hw0 Hh. split_worker Hw0; [|by eauto]. by simplify_eq.
  - intros w1 w2 c1 c2 r0 Hw1 Hw2 Ho1 Ho2.
    split_worker Hw1; split_worker Hw2; simplify_eq; eauto.
  - intros w0 c0 r0 Hw0 Ho. split_worker Hw0; simplify_eq; eauto.
  - intros id r0 [(t0 & Ht0 & Hid0) (w0 & c0 & Hw0 & Hc0)]%Hrun. split.
    + destruct (decide (r0 = r)) as [->|].
      * exists t'. rewrite list_lookup_insert_eq by done. by simplify_eq.
      * exists t0. by rewrite list_lookup_insert_ne.
    + destruct (decide (w0 = w)) as [->|].
      * exists w, c'. rewrite list_lookup_insert_eq by done.
        simplify_eq. apply registered_holds in Hc0 as Hh.
        apply owns_holds in Hown. simplify_eq. eauto.
      * exists w0, c0. by rewrite list_lookup_insert_ne.
  - intros r0 t0 Hin Ht0.
    apply list_lookup_insert_Some in Ht0 as [(<- & <- & _)|[? Ht0]];
      [|by eauto].
    by destruct (Hoq _ _ _ Hw Hown).
  - intros w0 c0 r0 t0 Hw0 Ho Ht0. split_worker Hw0; [by simplify_eq|].
    assert (r0 ≠ r) by (intros ->; eauto).
    rewrite list_lookup_insert_ne in Ht0 by done. eauto.
  - intros r0 t0 Ht0 Hin Hnone.
    apply list_lookup_insert_Some in Ht0 as [(<- & <- & _)|[? Ht0]]; [done|].
    eapply Hidle; [done..|]. intros w0 c0 Hw0 Ho.
    destruct (decide (w0 = w)) as [->|]; [by simplify_eq|].
    eapply (Hnone w0 c0); [|done]. by rewrite list_lookup_insert_ne.
Qed.

(** The owner of [r] puts the task back into the queue. *)
Lemma Inv_put st st' w c c' r t :
  Inv st →
  workers st !! w = Some c → owns c = Some r →
  owns c' = None → (∀ r0, holds c' = Some r0 → r0 = r) →
  (registered c = Some r → registered c' = Some r) →
  objects st !! r = Some t → waiting t →
  task_counter st' = task_counter st →
  (task_queue st').*2 ≡ₚ r :: (task_queue st).*2 →
  objects st' = objects st →
  workers st' = <[w:=c']> (workers st) →
  running_tasks st' = running_tasks st →
  Inv st'.
Proof.
  intros [Hcnt Hids Hqwf Hwwf Hnodup Huniq Hoq Hrun Hqok Hook Hidle]
    Hw Hown Hown' Hh' Hreg Ht Hwait Ecnt Eq Eobj Ew Erun.
  assert (r < length (objects st)) as Hr by (by eapply lookup_lt_Some).
  assert (w < length (workers st)) as Hwlt by (by eapply lookup_lt_Some).
  split; rewrite ?Ecnt, ?Eobj, ?Ew, ?Erun; try done.
  - intros r0. rewrite Eq. intros [->|?]%elem_of_cons; eauto.
  - intros w0 c0 r0 Hw0 Hh. split_worker Hw0; [|by eauto].
    by rewrite (Hh' _ Hh).
  - rewrite Eq. apply NoDup_cons. eauto.
  - intros w1 w2 c1 c2 r0 Hw1 Hw2 Ho1 Ho2.
    split_worker Hw1; split_worker Hw2; simplify_eq; eauto.
  - intros w0 c0 r0 Hw0 Ho. rewrite Eq. split_worker Hw0; [by simplify_eq|].
    apply not_elem_of_cons. split; [|by eauto]. intros ->. eauto.
  - intros id r0 [? (w0 & c0 & Hw0 & Hc0)]%Hrun. split; [done|].
    destruct (decide (w0 = w)) as [->|].
    + exists w, c'. rewrite list_lookup_insert_eq by done.
      simplify_eq. apply registered_holds in Hc0 as Hh.
      apply owns_holds in Hown. simplify_eq. eauto.
    + exists w0, c0. by rewrite list_lookup_insert_ne.
  - intros r0 t0. rewrite Eq.
    intros [->|?]%elem_of_cons Ht0; [by simplify_eq|by eauto].
  - intros w0 c0 r0 t0 Hw0 Ho Ht0. split_worker Hw0; [by simplify_eq|eauto].
  - intros r0 t0 Ht0. rewrite Eq. intros [? Hin]%not_elem_of_cons Hnone.
    eapply Hidle; [done..|]. intros w0 c0 Hw0 Ho.
    destruct (decide (w0 = w)) as [->|]; [by simplify_eq|].
    eapply (Hnone w0 c0); [|done]. by rewrite list_lookup_insert_ne.
Qed.

(** A worker without a task takes [r] out of the queue. *)
Lemma Inv_get st st' w c c' r :
  Inv st →
  workers st !! w = Some c → owns c = None → registered c = None →
  owns c' = Some r → (∀ t, waiting t → pc_ok c' t) →
  task_counter st' = task_counter st →
  (task_queue st).*2 ≡ₚ r :: (task_queue st').*2 →
  objects st' = objects st →
  workers st' = <[w:=c']> (workers st) →
  running_tasks st' = running_tasks st →
  Inv st'.
Proof.
  intros [Hcnt Hids Hqwf Hwwf Hnodup Huniq Hoq Hrun Hqok Hook Hidle]
    Hw Hown Hreg Hown' Hok Ecnt Eq Eobj Ew Erun.
  setoid_rewrite Eq in Hqwf. rewrite Eq in Hnodup. setoid_rewrite Eq in Hoq.
  setoid_rewrite Eq in Hqok. setoid_rewrite Eq in Hidle.
  apply NoDup_cons in Hnodup as [Hnotin Hnodup].
  assert (w < length (workers st)) as Hwlt by (by eapply lookup_lt_Some).
  split; rewrite ?Ecnt, ?Eobj, ?Ew, ?Erun; try done.
  - intros r0 ?. apply Hqwf. by right.
  - intros w0 c0 r0 Hw0 Hh. split_worker Hw0; [|by eauto].
    apply owns_holds in Hown'. simplify_eq. apply Hqwf. by left.
  - intros w1 w2 c1 c2 r0 Hw1 Hw2 Ho1 Ho2.
    split_worker Hw1; split_worker Hw2; simplify_eq; eauto.
    + destruct (Hoq _ _ _ Hw2 Ho2). by left.
    + destruct (Hoq _ _ _ Hw1 Ho1). by left.
  - intros w0 c0 r0 Hw0 Ho. split_worker Hw0; [by simplify_eq|].
    intros Hin. destruct (Hoq _ _ _ Hw0 Ho). by right.
  - intros id r0 [? (w0 & c0 & Hw0 & Hc0)]%Hrun. split; [done|].
    destruct (decide (w0 = w)) as [->|]; [by simplify_eq|].
    exists w0, c0. by rewrite list_lookup_insert_ne.
  - intros r0 t0 Hin Ht0. eapply Hqok; [by right|done].
  - intros w0 c0 r0 t0 Hw0 Ho Ht0. split_worker Hw0; [|by eauto].
    simplify_eq. apply Hok. eapply Hqok; [by left|done].
  - intros r0 t0 Ht0 Hin Hnone.
    destruct (decide (r0 = r)) as [->|].
    { destruct (Hnone w c'); [by rewrite list_lookup_insert_eq|done]. }
    eapply Hidle; [done| |].
    + by apply not_elem_of_cons.
    + intros w0 c0 Hw0 Ho.
      destruct (decide (w0 = w)) as [->|]; [by simplify_eq|].
      eapply (Hnone w0 c0); [|done]. by rewrite list_lookup_insert_ne.
Qed.

(** A worker that owns no task moves on. *)
Lemma Inv_idle st st' w c c' :
  Inv st →
  workers st !! w = Some c → owns c = None → owns c' = None →
  (∀ r0, holds c' = Some r0 → holds c = Some r0) →
  task_counter st' = task_counter st →
  task_queue st' = task_queue st →
  objects st' = objects st →
  workers st' = <[w:=c']> (workers st) →
  (∀ id r0, running_tasks st' !! id = Some r0 →
     running_tasks st !! id = Some r0 ∧
     (registered c = Some r0 → registered c' = Some r0)) →
  Inv st'.
Proof.
  intros [Hcnt Hids Hqwf Hwwf Hnodup Huniq Hoq Hrun Hqok Hook Hidle]
    Hw Hown Hown' Hh' Ecnt Eq Eobj Ew Erun.
  assert (w < length (workers st)) as Hwlt by (by eapply lookup_lt_Some).
  split; rewrite ?Ecnt, ?Eq, ?Eobj, ?Ew; try done.
  - intros w0 c0 r0 Hw0 Hh. split_worker Hw0; eauto.
  - intros w1 w2 c1 c2 r0 Hw1 Hw2 Ho1 Ho2.
    split_worker Hw1; split_worker Hw2; simplify_eq; eauto.
  - intros w0 c0 r0 Hw0 Ho. split_worker Hw0; [by simplify_eq|eauto].
  - intros id r0 [[? (w0 & c0 & Hw0 & Hc0)]%Hrun Hkeep]%Erun. split; [done|].
    destruct (decide (w0 = w)) as [->|].
    + exists w, c'. rewrite list_lookup_insert_eq by done.
      simplify_eq. eauto.
    + exists w0, c0. by rewrite list_lookup_insert_ne.
  - intros w0 c0 r0 t0 Hw0 Ho Ht0. split_worker Hw0; [by simplify_eq|eauto].
  - intros r0 t0 Ht0 Hin Hnone. eapply Hidle; [done..|].
    intros w0 c0 Hw0 Ho.
    destruct (decide (w0 = w)) as [->|]; [by simplify_eq|].
    eapply (Hnone w0 c0); [|done]. by rewrite list_lookup_insert_ne.
Qed.

(** *** Every step keeps the invariant *)

Lemma Inv_worker_step h w rnd st st' :
  Inv st → worker_step h w rnd st st' → Inv st'.
Proof.
  intros HI Hstep.
  pose proof (inv_owner_ok st HI w) as Hok.
  assert (∀ c r, workers st !! w = Some c → holds c = Some r →
                 is_Some (objects st !! r)) as Hobj.
  { intros c r Hw Hh. apply lookup_lt_is_Some.
    by eapply (inv_workers_wf st HI w). }
  assert (∀ r t, objects st !! r = Some t →
            ∀ id r0, running_tasks st !! id = Some r0 → id ≠ task_id t →
                     r0 ≠ r) as Hother.
  { intros r t Ht id r0 Hr0 Hne ->.
    apply (inv_running st HI) in Hr0 as [(t0 & ? & ?) _]. by simplify_eq. }
  step_cases Hstep;
    try destruct (Hobj _ tr Hwk eq_refl) as [tk Htk];
    try (pose proof (Hok _ tr tk Hwk eq_refl Htk) as Hpc; simpl in Hpc);
    try (pose proof (inv_ids st HI tr tk Htk) as [Hmax _]).
  - by eapply (Inv_idle st _ w AtLoop AtGet).
  - by eapply (Inv_idle st _ w AtLoop Exited).
  - apply heappop_Some in Hc as [_ Hperm].
    eapply (Inv_get st _ w AtGet (AtCheck pk tr) tr); try done.
    simpl. by rewrite Hperm.
  - by eapply (Inv_idle st _ w AtGet AtEmpty).
  - by eapply (Inv_idle st _ w AtEmpty AtLoop).
  - eapply (Inv_own st _ w (AtCheck pk tr) (AtPutBack pk tr) tr tk tk);
      try done; simpl; eauto; try by rewrite list_insert_id.
  - eapply (Inv_own st _ w (AtCheck pk tr) (AtMark pk tr) tr tk tk);
      try done; simpl; eauto; try by rewrite list_insert_id.
  - eapply (Inv_put st _ w (AtPutBack pk tr) AtSleep tr tk); try done.
    simpl. by rewrite heappush_perm.
  - by eapply (Inv_idle st _ w AtSleep AtContinue).
  - by eapply (Inv_idle st _ w AtContinue AtLoop).
  - eapply (Inv_own st _ w (AtMark pk tr) (AtStarted pk tr) tr tk
              (set_status Running tk)); try done; simpl; eauto.
    split; [done|]. destruct Hpc as [[? _]|[? _]]; lia.
  - eapply (Inv_own st _ w (AtStarted pk tr) (AtWorkerId pk tr) tr tk
              (set_started_at (clock st) tk)); try done; simpl; eauto.
  - eapply (Inv_own st _ w (AtWorkerId pk tr) (AtRegister pk tr) tr tk
              (set_worker_id w tk)); try done; simpl; eauto.
  - eapply (Inv_own st _ w (AtRegister pk tr) (AtExecute pk tr) tr tk tk);
      try done; simpl; eauto; try by rewrite list_insert_id.
    intros id r0 [[<- <-]|[_ ?]]%lookup_insert_Some; eauto.
  - eapply (Inv_own st _ w (AtExecute pk tr) (AtComplete pk tr res) tr tk tk);
      try done; simpl; eauto; try by rewrite list_insert_id.
  - eapply (Inv_own st _ w (AtExecute pk tr) (AtExcept pk tr err) tr tk tk);
      try done; simpl; eauto; try by rewrite list_insert_id.
  - eapply (Inv_own st _ w (AtComplete pk tr res) (AtCompletedAt pk tr res)
              tr tk (set_status Completed tk)); try done; simpl; eauto.
    by destruct Hpc.
  - eapply (Inv_own st _ w (AtCompletedAt pk tr res) (AtResult pk tr res)
              tr tk (set_completed_at (clock st) tk));
      try done; simpl; eauto.
  - eapply (Inv_own st _ w (AtResult pk tr res) (AtAppend pk tr res)
              tr tk (set_result res tk)); try done; simpl; eauto.
  - eapply (Inv_release st _ w (AtAppend pk tr res) (AtFinally pk tr)
              tr tk tk); try done; simpl; try by rewrite list_insert_id.
    left. by destruct Hpc.
  - eapply (Inv_own st _ w (AtExcept pk tr err) (AtError pk tr err) tr tk
              (set_status Failed tk)); try done; simpl; eauto.
    by destruct Hpc.
  - eapply (Inv_own st _ w (AtError pk tr err) (AtRetries pk tr) tr tk
              (set_error err tk)); try done; simpl; eauto.
  - eapply (Inv_own st _ w (AtRetries pk tr) (AtRetryTest pk tr) tr tk
              (set_retries (retries tk + 1) tk)); try done; simpl; eauto.
    destruct Hpc. split; [done|lia].
  - eapply (Inv_own st _ w (AtRetryTest pk tr) (AtLower pk tr) tr tk tk);
      try done; simpl; eauto; try by rewrite list_insert_id.
    destruct Hpc. split; [done|lia].
  - eapply (Inv_own st _ w (AtRetryTest pk tr) (AtGiveUp pk tr) tr tk tk);
      try done; simpl; eauto; try by rewrite list_insert_id.
    destruct Hpc. split; [done|lia].
  - eapply (Inv_own st _ w (AtLower pk tr) (AtRequeue pk tr) tr tk
              (set_priority (Z.max 1 (priority tk - 1)) tk));
      try done; simpl; eauto.
  - eapply (Inv_put st _ w (AtRequeue pk tr) (AtFinally pk tr) tr tk);
      try done.
    + simpl. by intros r0 [= <-].
    + unfold waiting. tauto.
    + simpl. by rewrite heappush_perm.
  - eapply (Inv_release st _ w (AtGiveUp pk tr) (AtFinally pk tr) tr tk tk);
      try done; simpl; try by rewrite list_insert_id.
    by right.
  - by eapply (Inv_idle st _ w (AtFinally pk tr) (AtDel pk tr)).
  - eapply (Inv_idle st _ w (AtFinally pk tr) (AtTaskDone pk tr)); try done.
    simpl. intros id r0 Hr0. split; [done|]. intros [= <-]. exfalso.
    eapply (Hother tr tk Htk id tr); [done| |done].
    intros ->. by rewrite Hc in Hr0.
  - eapply (Inv_idle st _ w (AtDel pk tr) (AtTaskDone pk tr)); try done.
    simpl. intros id r0 [Hne Hr0]%lookup_delete_Some. split; [done|].
    intros [= <-]. exfalso. by eapply (Hother tr tk Htk id tr).
  - eapply (Inv_idle st _ w (AtDel pk tr) (Crashed KeyError)); try done.
    simpl. intros id r0 Hr0. split; [done|]. intros [= <-]. exfalso.
    eapply (Hother tr tk Htk id tr); [done| |done].
    intros ->. by rewrite Hc in Hr0.
  - by eapply (Inv_idle st _ w (AtTaskDone pk tr) AtLoop).
  - by eapply (Inv_idle st _ w (AtTaskDone pk tr) (Crashed ValueError)).
Qed.

Lemma Inv_step h st ev st' : Inv st → step h st ev = Some st' → Inv st'.
Proof.
  intros HI. destruct ev as [dt|nm p d| |w rnd]; simpl.
  - case_bool_decide; [|done]. intros [= <-]. by destruct HI.
  - intros [= <-]. by apply Inv_add_task.
  - intros [= <-]. by destruct HI.
  - intros Hw%worker_function_step. by eapply Inv_worker_step.
Qed.

Lemma Inv_run h evs st st' : Inv st → run h st evs = Some st' → Inv st'.
Proof.
  revert st. induction evs as [|ev evs IH]; intros st HI; simpl.
  - by intros [= <-].
  - destruct (step h st ev) as [st1|] eqn:Hstep; [|done]. simpl.
    apply IH. by eapply Inv_step.
Qed.

Lemma Inv_reachable h n st : reachable h n st → Inv st.
Proof. intros [evs Hrun]. eapply Inv_run; [apply Inv_initial|done]. Qed.

(** ** No dispatch before the scheduled time *)

(** The worker has passed the test of line 80 with this task. *)
Definition past_gate (c : pc) : option ref :=
  match c with
  | AtCheck _ _ | AtPutBack _ _ => None
  | _ => holds c
  end.

(** The worker has executed line 86 with this task. *)
Definition past_start (c : pc) : option ref :=
  match c with
  | AtMark _ _ | AtStarted _ _ => None
  | _ => past_gate c
  end.

Record Gate (st : State) : Prop := {
  gate_worker : ∀ w c r t,
    workers st !! w = Some c → past_gate c = Some r →
    objects st !! r = Some t → (scheduled_time t ≤ clock st)%Z;
  gate_marked : ∀ w c r t,
    workers st !! w = Some c → past_start c = Some r →
    objects st !! r = Some t → is_Some (started_at t);
  gate_started : ∀ r t s,
    objects st !! r = Some t → started_at t = Some s →
    (scheduled_time t ≤ s ≤ clock st)%Z;
  gate_status : ∀ r t,
    objects st !! r = Some t → status t ≠ Pending →
    is_Some (started_at t) ∨ ∃ w p, workers st !! w = Some (AtStarted p r);
}.

Lemma Gate_initial n : Gate (initial_state n).
Proof.
  split; simpl; try done; by intros w c r t [-> _]%lookup_replicate.
Qed.

Lemma Gate_add_task nm p d st : Inv st → Gate st → Gate (add_task nm p d st).2.
Proof.
  intros HI [Hwork Hmark Hstart Hstat].
  assert (∀ w c r t, workers st !! w = Some c → holds c = Some r →
    (objects st ++ [Task_init (make_task_id (task_counter st + 1) (clock st))
                      nm p (Some (clock st + d)%Z) (clock st)]) !! r = Some t →
    objects st !! r = Some t) as Hold.
  { intros w c r t Hw Hc Hr. rewrite lookup_app_l in Hr; [done|].
    by eapply (inv_workers_wf st HI w c). }
  split; simpl.
  - intros w c r t Hw Hc Hr. eapply Hwork; [done..|].
    eapply Hold; [done| |done]. by destruct c.
  - intros w c r t Hw Hc Hr. eapply Hmark; [done..|].
    eapply Hold; [done| |done]. by destruct c.
  - intros r t s [?|[_ [_ <-]%list_lookup_singleton_Some]]%lookup_app_Some;
      [by eauto|done].
  - intros r t [?|[_ [_ <-]%list_lookup_singleton_Some]]%lookup_app_Some;
      [by eauto|done].
Qed.

Lemma Gate_worker_step h w rnd st st' :
  Gate st → worker_step h w rnd st st' → Gate st'.
Proof.
  intros [Hwork Hmark Hstart Hstat] Hstep.
  assert (∀ st1 c c',
    workers st !! w = Some c → (∀ p r, c ≠ AtStarted p r) →
    objects st1 = objects st → clock st1 = clock st →
    workers st1 = <[w:=c']> (workers st) →
    (∀ r t, past_gate c' = Some r → objects st !! r = Some t →
            scheduled_time t ≤ clock st)%Z →
    (∀ r t, past_start c' = Some r → objects st !! r = Some t →
            is_Some (started_at t)) →
    Gate st1) as Hsame.
  { intros st1 c c' Hw Hc Eobj Eclk Ew Hc' Hm'.
    split; rewrite ?Eobj, ?Eclk, ?Ew; try done.
    - intros w0 c0 r0 t0 [(<- & <- & _)|[_ Hw0]]%list_lookup_insert_Some;
        eauto.
    - intros w0 c0 r0 t0 [(<- & <- & _)|[_ Hw0]]%list_lookup_insert_Some;
        eauto.
    - intros r0 t0 Ht0 Hst0.
      destruct (Hstat r0 t0 Ht0 Hst0) as [?|(w0 & p0 & Hw0)]; [by left|].
      right. exists w0, p0. rewrite list_lookup_insert_ne; [done|].
      intros <-. rewrite Hw in Hw0. injection Hw0 as ->. by eapply Hc. }
  assert (∀ st1 c c' r t t',
    workers st !! w = Some c → holds c = Some r →
    objects st !! r = Some t →
    objects st1 = <[r:=t']> (objects st) → clock st1 = clock st →
    workers st1 = <[w:=c']> (workers st) →
    scheduled_time t' = scheduled_time t →
    (started_at t' = started_at t ∨
     started_at t' = Some (clock st) ∧ scheduled_time t ≤ clock st)%Z →
    (status t' ≠ Pending →
     is_Some (started_at t') ∨ ∃ p, c' = AtStarted p r) →
    past_gate c' = Some r → (scheduled_time t ≤ clock st)%Z →
    (past_start c' = Some r → is_Some (started_at t')) →
    Gate st1) as Hupd.
  { intros st1 c c' r t t' Hw Hh Ht Eobj Eclk Ew Hsched Hst Hstatus Hc' Hle
      Hm'.
    assert (w < length (workers st)) as Hwlt by (by eapply lookup_lt_Some).
    assert (is_Some (started_at t) → is_Some (started_at t')) as Hmono.
    { destruct Hst as [->|[-> _]]; eauto. }
    split; rewrite ?Eobj, ?Eclk, ?Ew.
    - intros w0 c0 r0 t0 Hw0 Hc0 Ht0.
      assert (∃ t1, objects st !! r0 = Some t1 ∧
                    scheduled_time t0 = scheduled_time t1) as (t1 & Ht1 & ->).
      { apply list_lookup_insert_Some in Ht0 as [(<- & <- & _)|[_ Ht0]];
          eauto. }
      apply list_lookup_insert_Some in Hw0 as [(<- & <- & _)|[_ Hw0]];
        [by simplify_eq|eauto].
    - intros w0 c0 r0 t0 Hw0 Hc0 Ht0.
      apply list_lookup_insert_Some in Hw0 as [(<- & <- & _)|[_ Hw0]].
      + assert (r0 = r) as -> by (by destruct c'; simplify_eq/=).
        rewrite list_lookup_insert_eq in Ht0 by (by eapply lookup_lt_Some).
        simplify_eq. eauto.
      + apply list_lookup_insert_Some in Ht0 as [(<- & <- & _)|[_ Ht0]];
          eauto.
    - intros r0 t0 s [(<- & <- & _)|[_ Ht0]]%list_lookup_insert_Some;
        [|by eauto].
      rewrite Hsched. destruct Hst as [->|[-> ?]]; [by eauto|].
      intros [= <-]. lia.
    - intros r0 t0 [(<- & <- & _)|[Hne Ht0]]%list_lookup_insert_Some Hst0.
      + destruct (Hstatus Hst0) as [?|[p ->]]; [by left|].
        right. exists w, p. by apply list_lookup_insert_eq.
      + destruct (Hstat r0 t0 Ht0 Hst0) as [?|(w0 & p0 & Hw0)]; [by left|].
        right. exists w0, p0. rewrite list_lookup_insert_ne; [done|].
        intros <-. rewrite Hw in Hw0. injection Hw0 as ->.
        simpl in Hh. congruence. }
  step_cases Hstep;
    try (eapply Hsame; try done; simpl; intros; simplify_eq; eauto; fail).
  all: eapply (Hupd _ _ _ tr tk); try done; simpl; eauto.
Qed.

Lemma Gate_step h st ev st' :
  Inv st → Gate st → step h st ev = Some st' → Gate st'.
Proof.
  intros HI HG. destruct ev as [dt|nm p d| |w rnd]; simpl.
  - case_bool_decide; [|done]. intros [= <-].
    destruct HG as [Hwork Hmark Hstart Hstat]. split; simpl; try done.
    + intros w c r t Hw Hc Ht. specialize (Hwork _ _ _ _ Hw Hc Ht). lia.
    + intros r t s Ht Hs. specialize (Hstart _ _ _ Ht Hs). lia.
  - intros [= <-]. by apply Gate_add_task.
  - intros [= <-]. by destruct HG.
  - intros Hw%worker_function_step. by eapply Gate_worker_step.
Qed.

Lemma Gate_run h evs st st' :
  Inv st → Gate st → run h st evs = Some st' → Gate st'.
Proof.
  revert st. induction evs as [|ev evs IH]; intros st HI HG; simpl.
  - by intros [= <-].
  - destruct (step h st ev) as [st1|] eqn:Hstep; [|done]. simpl.
    apply IH; [by eapply Inv_step|by eapply Gate_step].
Qed.

Lemma Gate_reachable h n st : reachable h n st → Gate st.
Proof.
  intros [evs Hrun].
  eapply Gate_run; [apply Inv_initial|apply Gate_initial|done].
Qed.

(** ** Scenarios *)

(** A task body installed by the caller that raises at every call. *)
Definition failing_body : Handler := λ _ _, Raises "boom".

(** The state reached by an execution (the initial state if it is stuck). *)
Definition outcome (h : Handler) (n : nat) (evs : list event) : State :=
  default (initial_state n) (run h (initial_state n) evs).

(** ** Queue and running set *)

(** The identifier belongs to a task that sits in the priority queue. *)
Definition in_queue (st : State) (id : string) : Prop :=
  ∃ p r t,
    (p, r) ∈ task_queue st ∧ objects st !! r = Some t ∧ task_id t = id.

(** The identifier is a key of [running_tasks]. *)
Definition in_running (st : State) (id : string) : Prop :=
  is_Some (running_tasks st !! id).

(** The property "no reachable state has an identifier both in the queue
    and in the running set", for a pool of [n] workers with body [h]. *)
Definition queue_running_exclusive (h : Handler) (n : nat) : Prop :=
  ∀ st id, reachable h n st → ¬ (in_queue st id ∧ in_running st id).

(** One worker, one task whose body raises: after line 110 the task is back
    in the queue and still in [running_tasks]. *)
Definition requeued_state : State :=
  outcome failing_body 1 (Submit (PyStr "job") 5 0 :: replicate 14 (Work 0 0)).

Lemma requeued_state_reachable : reachable failing_body 1 requeued_state.
Proof.
  exists (Submit (PyStr "job") 5 0 :: replicate 14 (Work 0 0)). by vm_compute.
Qed.

(** The worker stands in the [finally] block (lines 115-116). *)
Definition in_finally (c : pc) : option ref :=
  match c with
  | AtFinally _ r | AtDel _ r => Some r
  | _ => None
  end.

(** C1, counterexample: with a task body that raises, the worker reaches
    line 115 with the task already re-inserted by line 110 and not yet
    deleted from the running set; its identifier is in both. *)
Lemma queue_running_overlap : ¬ queue_running_exclusive failing_body 1.
Proof.
  intros Hexcl.
  apply (Hexcl requeued_state "task_1_0" requeued_state_reachable).
  split.
  - exists 5%Z, 0. eexists. split_and!.
    + vm_compute. apply list_elem_of_here.
    + vm_compute. reflexivity.
    + reflexivity.
  - exists 0. by vm_compute.
Qed.

(** C1: an identifier can be in the queue and in the running set at once
    only while a worker that holds the task stands in its [finally] block
    (lines 114-116), before the test of line 115 or before the [del] of
    line 116: the retry path re-inserts the task at line 110 and the
    deletion from [running_tasks] comes afterwards. *)
Theorem queue_running_overlap_only_at_finally h n st id :
  reachable h n st → in_queue st id → in_running st id →
  ∃ w c r t,
    workers st !! w = Some c ∧ in_finally c = Some r ∧
    objects st !! r = Some t ∧ task_id t = id.
Proof.
  intros HI%Inv_reachable (p & r & t & Hin & Ht & Hid) [r' Hr'].
  destruct (inv_running st HI id r' Hr')
    as [(t' & Ht' & Hid') (w & c & Hw & Hc)].
  assert (r' = r) as ->.
  { destruct (inv_ids st HI r t Ht) as [_ [now Hnow]].
    destruct (inv_ids st HI r' t' Ht') as [_ [now' Hnow']].
    assert (Z.of_nat r' + 1 = Z.of_nat r + 1)%Z; [|lia].
    eapply make_task_id_inj. by rewrite <-Hnow, <-Hnow', Hid, Hid'. }
  assert (r ∈ (task_queue st).*2) as Hq.
  { apply list_elem_of_fmap. by exists (p, r). }
  destruct (owns c) as [r0|] eqn:Hown.
  - assert (r0 = r) as ->.
    { apply owns_holds in Hown. apply registered_holds in Hc. congruence. }
    by destruct (inv_owner_queue st HI w c r Hw Hown).
  - destruct c; simplify_eq/=; eauto 10.
Qed.

Lemma queue_running_overlap_only_at_finally_witness :
  ∃ w c r t,
    workers requeued_state !! w = Some c ∧ in_finally c = Some r ∧
    objects requeued_state !! r = Some t ∧ task_id t = "task_1_0".
Proof.
  apply (queue_running_overlap_only_at_finally failing_body 1).
  - exists (Submit (PyStr "job") 5 0 :: replicate 14 (Work 0 0)). by vm_compute.
  - exists 5%Z, 0. eexists. split_and!.
    + vm_compute. apply list_elem_of_here.
    + vm_compute. reflexivity.
    + reflexivity.
  - exists 0. by vm_compute.
Defined.

(** C9: whatever the task body and the interleaving, a [started_at] is
    never earlier than the [scheduled_time] of its task, and a worker that
    is about to call the body does so at or after the scheduled time.  A
    task that has left the [pending] status has a [started_at], except
    between lines 85 and 86 of its first attempt, where the worker that
    has just set the status is about to set it. *)
Theorem no_dispatch_before_scheduled_time h n st r t :
  reachable h n st → objects st !! r = Some t →
  (status t ≠ Pending →
   is_Some (started_at t) ∨ ∃ w p, workers st !! w = Some (AtStarted p r)) ∧
  (∀ s, started_at t = Some s → scheduled_time t ≤ s ≤ clock st)%Z ∧
  (∀ w p, workers st !! w = Some (AtExecute p r) →
          scheduled_time t ≤ clock st)%Z.
Proof.
  intros HG%Gate_reachable Ht. split_and!.
  - by apply (gate_status st HG r).
  - intros s. by apply (gate_started st HG r).
  - intros w p Hw. by apply (gate_worker st HG w (AtExecute p r) r).
Qed.

(** A task delayed by two seconds, a clock that advances by two seconds,
    and a worker that reaches the call of the body. *)
Definition delayed_events : list event :=
  Submit (PyStr "echo") 1 2000000 :: replicate 4 (Work 0 0) ++
  Tick 2000000 :: replicate 9 (Work 0 0).

Definition delayed_state : State := outcome execute_task 1 delayed_events.

Definition delayed_task : Task :=
  set_worker_id 0
    (set_started_at 2000000
       (set_status Running
          (Task_init "task_1_0" (PyStr "echo") 1 (Some 2000000%Z) 0))).

Lemma no_dispatch_before_scheduled_time_witness :
  objects delayed_state !! 0 = Some delayed_task ∧
  (status delayed_task ≠ Pending →
   is_Some (started_at delayed_task) ∨
   ∃ w p, workers delayed_state !! w = Some (AtStarted p 0)) ∧
  (∀ s, started_at delayed_task = Some s →
        scheduled_time delayed_task ≤ s ≤ clock delayed_state)%Z ∧
  (∀ w p, workers delayed_state !! w = Some (AtExecute p 0) →
          scheduled_time delayed_task ≤ clock delayed_state)%Z.
Proof.
  split; [by vm_compute|].
  apply (no_dispatch_before_scheduled_time execute_task 1 delayed_state 0).
  - exists delayed_events. by vm_compute.
  - by vm_compute.
Defined.

(** ** What a statement does to the tasks the worker does not hold *)

Lemma run_cons h st ev evs st' :
  run h st (ev :: evs) = Some st' ↔
  ∃ st1, step h st ev = Some st1 ∧ run h st1 evs = Some st'.
Proof.
  simpl. destruct (step h st ev) as [st1|]; simpl.
  - split; [by eauto|]. by intros (? & [= <-] & ?).
  - split; [done|]. by intros (? & ? & ?).
Qed.

Lemma worker_step_frame h w rnd st st' :
  worker_step h w rnd st st' →
  ∃ c c',
    workers st !! w = Some c ∧ workers st' = <[w:=c']> (workers st) ∧
    ∀ r, holds c ≠ Some r → holds c' ≠ Some r →
      objects st' !! r = objects st !! r ∧
      ∀ k, (k, r) ∈ task_queue st' ↔ (k, r) ∈ task_queue st.
Proof.
  intros Hstep. step_cases Hstep;
    (eexists _, _; split; [exact Hwk|]; split; [reflexivity|]);
    simpl; intros r0 Hr0 Hr0'; try done;
    try (split; [apply list_lookup_insert_ne; congruence|done]).
  - split; [done|]. intros k.
    apply heappop_Some in Hc as [_ ->]. rewrite elem_of_cons.
    split; [by right|]. intros [[= _ ->]|?]; [congruence|done].
  - split; [done|]. intros k. rewrite heappush_perm, elem_of_cons.
    split; [|by right]. intros [[= _ ->]|?]; [congruence|done].
  - split; [done|]. intros k. rewrite heappush_perm, elem_of_cons.
    split; [|by right]. intros [[= _ ->]|?]; [congruence|done].
Qed.

(** ** Counting the attempts of a task *)

(** The task handed to [execute_task] by the event, when the event is the
    statement of line 92. *)
Definition dispatch (st : State) (ev : event) : option ref :=
  match ev with
  | Work w _ =>
      match workers st !! w with
      | Some (AtExecute _ r) => Some r
      | _ => None
      end
  | _ => None
  end.

(** How many times the body was called on task [r] along the execution. *)
Fixpoint attempts (h : Handler) (st : State) (evs : list event) (r : ref)
    : nat :=
  match evs with
  | [] => 0
  | ev :: evs' =>
      (if decide (dispatch st ev = Some r) then 1 else 0) +
      match step h st ev with
      | Some st' => attempts h st' evs' r
      | None => 0
      end
  end.

(** Nothing is left to do for the task: it is not queued and no worker
    has it in hand. *)
Definition idle (st : State) (r : ref) : Prop :=
  (r ∉ (task_queue st).*2) ∧
  (∀ w c, workers st !! w = Some c → holds c ≠ Some r).











(** The count of retries of a task never leaves [0 .. max_retries]. *)
Lemma retries_bound st r t :
  Inv st → objects st !! r = Some t → (0 ≤ retries t ≤ max_retries t)%Z.
Proof.
  intros HI Ht. destruct (inv_ids st HI r t Ht) as [Hmax _].
  destruct (decide (r ∈ (task_queue st).*2)) as [Hq|Hq].
  { destruct (inv_queue_ok st HI r t Hq Ht) as [[? _]|[? _]]; lia. }
  destruct (decide (Exists (λ c, owns c = Some r) (workers st))) as [Hw|Hw].
  - apply Exists_exists in Hw as (c & [w Hw]%list_elem_of_lookup & Hc).
    pose proof (inv_owner_ok st HI w c r t Hw Hc Ht) as Hok.
    destruct c; simplify_eq/=; destruct Hok as [[? _]|[? _]] || destruct Hok;
      lia.
  - destruct (inv_idle_ok st HI r t Ht Hq) as [[_ ?]|[_ ?]]; [|lia..].
    intros w c Hw' Hc. apply Hw, Exists_exists. exists c. split; [|done].
    by eapply list_elem_of_lookup_2.
Qed.



(** One worker and one task whose body always raises, run until the worker
    has nothing left to do. *)
Definition failed_events : list event :=
  Submit (PyStr "job") 5 0 :: replicate 50 (Work 0 0).

Definition failed_state : State := outcome failing_body 1 failed_events.

Definition failed_task : Task :=
  set_priority 3
    (set_retries 3
       (set_error "boom"
          (set_status Failed
             (set_worker_id 0
                (set_started_at 0
                   (Task_init "task_1_0" (PyStr "job") 5 (Some 0%Z) 0)))))).



Lemma failed_state_idle : idle failed_state 0.
Proof.
  split.
  - vm_compute. apply not_elem_of_nil.
  - intros w c. replace (workers failed_state) with [AtLoop] by (by vm_compute).
    by intros [-> <-]%list_lookup_singleton_Some.
Qed.




(** ** The status of a task that waits for a retry *)

(** The claim that every task found in the queue is [pending]. *)
Definition queued_tasks_pending (h : Handler) (n : nat) : Prop :=
  ∀ st p r t,
    reachable h n st → (p, r) ∈ task_queue st → objects st !! r = Some t →
    status t = Pending.

(** One worker, one task whose body raises, and the worker back at the head
    of the loop after the first attempt. *)
Definition retry_events : list event :=
  Submit (PyStr "job") 5 0 :: replicate 17 (Work 0 0).

Definition retry_state : State := outcome failing_body 1 retry_events.

Definition retry_task : Task :=
  set_priority 4
    (set_retries 1
       (set_error "boom"
          (set_status Failed
             (set_worker_id 0
                (set_started_at 0
                   (Task_init "task_1_0" (PyStr "job") 5 (Some 0%Z) 0)))))).

Lemma retry_state_reachable : reachable failing_body 1 retry_state.
Proof. exists retry_events. by vm_compute. Qed.

Lemma retry_state_queue : task_queue retry_state = [(5%Z, 0)].
Proof. by vm_compute. Qed.

Lemma retry_state_task : objects retry_state !! 0 = Some retry_task.
Proof. by vm_compute. Qed.

(** C5, counterexample: after a failed attempt the task waits in the queue
    with the status ['failed'] left by line 104. *)
Lemma requeued_task_not_pending : ¬ queued_tasks_pending failing_body 1.
Proof.
  intros Hclaim.
  pose proof (Hclaim retry_state 5%Z 0 retry_task retry_state_reachable)
    as Hpending.
  rewrite retry_state_queue in Hpending.
  specialize (Hpending (list_elem_of_here _ _) retry_state_task).
  discriminate Hpending.
Qed.

(** C5: a task that waits in the queue is either fresh ([pending], never
    attempted) or has failed between one and [max_retries - 1] times, and
    then its status is ['failed']: line 104 sets it and the retry path does
    not set it back to ['pending']. *)
Theorem queued_task_status h n st p r t :
  reachable h n st → (p, r) ∈ task_queue st → objects st !! r = Some t →
  (retries t = 0 ∧ status t = Pending)%Z ∨
  (0 < retries t < max_retries t ∧ status t = Failed)%Z.
Proof.
  intros HI%Inv_reachable Hin Ht.
  apply (inv_queue_ok st HI r t); [|done].
  apply list_elem_of_fmap. by exists (p, r).
Qed.

Lemma queued_task_status_witness :
  (retries retry_task = 0 ∧ status retry_task = Pending)%Z ∨
  (0 < retries retry_task < max_retries retry_task ∧
   status retry_task = Failed)%Z.
Proof.
  apply (queued_task_status failing_body 1 retry_state 5 0).
  - exists retry_events. by vm_compute.
  - vm_compute. apply list_elem_of_here.
  - by vm_compute.
Defined.

(** ** The key of a requeued task *)

(** C6: at the failing input (one task of priority 5 whose body raises
    once) the entry re-inserted by line 110 carries the key 5 taken out of
    the queue at line 78, while line 109 has lowered the priority of the
    task to 4. *)
Lemma requeue_keeps_dequeued_key :
  task_queue retry_state = [(5%Z, 0)] ∧
  priority <$> objects retry_state !! 0 = Some 4%Z.
Proof. split; by vm_compute. Qed.

(** ** Submission *)




(** ** The built-in task bodies *)

(** The name selects one of the ten named bodies of [execute_task]. *)
Definition known_name (nm : string) : bool :=
  contains "backup" nm || contains "cleanup" nm || contains "sync" nm ||
  contains "index" nm || contains "generate" nm || contains "send" nm ||
  contains "process" nm || contains "archive" nm ||
  contains "validate" nm || contains "compress" nm.

(** The built-in body returns when the name is a string, whatever the
    string. *)
Lemma execute_task_returns t rnd :
  is_str (name t) = true → ∃ res, execute_task t rnd = Returns res.
Proof.
  unfold execute_task. destruct (name t); [|done..]. intros _.
  repeat case_match; eauto.
Qed.

(** It raises when the name is not a string: the test of line 126 is not
    defined on such a name. *)
Lemma execute_task_raises t rnd :
  is_str (name t) = false → ∃ e, execute_task t rnd = Raises e.
Proof. unfold execute_task. destruct (name t); [done|eauto..]. Qed.

Lemma execute_task_default t rnd nm :
  name t = PyStr nm → known_name nm = false →
  execute_task t rnd = Returns ("Executed: " +:+ nm).
Proof.
  unfold known_name, execute_task. intros -> Hunknown.
  repeat (apply orb_false_elim in Hunknown as [Hunknown ?]).
  by repeat case_match.
Qed.

(** [res] is a value that the built-in body for the name can return. *)
Definition body_output (nm : PyValue) (res : string) : Prop :=
  ∃ t rnd, name t = nm ∧ execute_task t rnd = Returns res.

(** The worker is in the [except] branch (lines 103-112). *)
Definition in_except_branch (c : pc) : option ref :=
  match c with
  | AtExcept _ r _ | AtError _ r _ | AtRetries _ r | AtRetryTest _ r
  | AtLower _ r | AtRequeue _ r | AtGiveUp _ r => Some r
  | _ => None
  end.

(** The local variable [result] of a worker in the completion block. *)
Definition result_of (c : pc) : option (ref * string) :=
  match c with
  | AtComplete _ r res | AtCompletedAt _ r res | AtResult _ r res
  | AtAppend _ r res => Some (r, res)
  | _ => None
  end.

(** The worker has set the status ['completed'] (line 93) and not yet the
    result (line 95). *)
Definition result_pending (c : pc) : option ref :=
  match c with
  | AtCompletedAt _ r _ | AtResult _ r _ => Some r
  | _ => None
  end.

Lemma in_except_branch_holds c r :
  in_except_branch c = Some r → holds c = Some r.
Proof. by destruct c. Qed.

Lemma result_of_holds c r res : result_of c = Some (r, res) → holds c = Some r.
Proof. destruct c; simpl; congruence. Qed.

Lemma result_pending_holds c r : result_pending c = Some r → holds c = Some r.
Proof. by destruct c. Qed.

Lemma elem_of_deque_append {A} maxlen (d : list A) x y :
  y ∈ deque_append maxlen d x → y ∈ d ∨ y = x.
Proof.
  unfold deque_append. intros Hin.
  eapply elem_of_sublist in Hin; [|apply sublist_drop].
  apply elem_of_app in Hin as [?|Hx]; [by left|].
  apply list_elem_of_singleton in Hx. by right.
Qed.

(** What holds of every state reached with the built-in bodies: a task
    whose name is a string never fails. *)
Record BuiltIn (st : State) : Prop := {
  bi_failed : ∀ d, d ∈ failed_tasks st → is_str (d_name d) = false;
  bi_workers : ∀ w c r t,
    workers st !! w = Some c → in_except_branch c = Some r →
    objects st !! r = Some t → is_str (name t) = false;
  bi_complete : ∀ w c r res t,
    workers st !! w = Some c → result_of c = Some (r, res) →
    objects st !! r = Some t → body_output (name t) res;
  bi_tasks : ∀ r t, objects st !! r = Some t →
    (is_str (name t) = true → retries t = 0%Z ∧ status t ≠ Failed) ∧
    (status t = Completed →
     (∃ res, result t = Some res ∧ body_output (name t) res) ∨
     (∃ w c, workers st !! w = Some c ∧ result_pending c = Some r));
}.

Lemma BuiltIn_initial n : BuiltIn (initial_state n).
Proof.
  split; simpl; try done;
    try (by intros d ?%elem_of_nil);
    try (by intros w c r t [-> _]%lookup_replicate);
    try (by intros w c r res t [-> _]%lookup_replicate).
Qed.

Lemma BuiltIn_add_task nm p d st :
  Inv st → BuiltIn st → BuiltIn (add_task nm p d st).2.
Proof.
  intros HI [Hfailed Hworkers Hcomplete Htasks].
  assert (∀ w c r t, workers st !! w = Some c → holds c = Some r →
    (objects st ++ [Task_init (make_task_id (task_counter st + 1) (clock st))
                      nm p (Some (clock st + d)%Z) (clock st)]) !! r = Some t →
    objects st !! r = Some t) as Hold.
  { intros w c r t Hw Hc Hr. rewrite lookup_app_l in Hr; [done|].
    by eapply (inv_workers_wf st HI w c). }
  split; simpl; try done.
  - intros w c r t Hw Hc Ht. eapply Hworkers; [done..|].
    eapply Hold; [done| |done]. by apply in_except_branch_holds.
  - intros w c r res t Hw Hc Ht. eapply Hcomplete; [done..|].
    eapply Hold; [done| |done]. by eapply result_of_holds.
  - intros r t [?|[_ [_ <-]%list_lookup_singleton_Some]]%lookup_app_Some;
      [by eauto|done].
Qed.

Lemma BuiltIn_worker_step w rnd st st' :
  BuiltIn st → worker_step execute_task w rnd st st' → BuiltIn st'.
Proof.
  intros [Hfailed Hworkers Hcomplete Htasks] Hstep.
  destruct (worker_step_frame _ _ _ _ _ Hstep) as (c & _ & Hw & _ & _).
  assert (w < length (workers st)) as Hwlt by (by eapply lookup_lt_Some).
  assert (∀ st1 c1,
    workers st1 = <[w:=c1]> (workers st) → objects st1 = objects st →
    (∀ d, d ∈ failed_tasks st1 →
       d ∈ failed_tasks st ∨
       ∃ r t, in_except_branch c = Some r ∧ objects st !! r = Some t ∧
              d = to_dict t) →
    (∀ r, in_except_branch c1 = Some r →
       in_except_branch c = Some r ∨
       ∃ t, objects st !! r = Some t ∧ is_str (name t) = false) →
    (∀ r res, result_of c1 = Some (r, res) →
       result_of c = Some (r, res) ∨
       ∃ t, objects st !! r = Some t ∧ body_output (name t) res) →
    (∀ r, result_pending c = Some r → result_pending c1 = Some r) →
    BuiltIn st1) as Hsame.
  { intros st1 c1 Ew Eobj Efailed Hexc Hres Hpend. split; rewrite ?Ew, ?Eobj.
    - intros d [?|(r & t & Hc & Ht & ->)]%Efailed; [by eauto|].
      simpl. by eapply Hworkers.
    - intros w0 c0 r t [(_ & <- & _)|[_ Hw0]]%list_lookup_insert_Some Hc0 Ht;
        [|by eauto].
      destruct (Hexc r Hc0) as [?|(t' & Ht' & ?)]; [by eauto|by simplify_eq].
    - intros w0 c0 r res t [(_ & <- & _)|[_ Hw0]]%list_lookup_insert_Some
        Hc0 Ht; [|by eauto].
      destruct (Hres r res Hc0) as [?|(t' & Ht' & ?)];
        [by eauto|by simplify_eq].
    - intros r t Ht. destruct (Htasks r t Ht) as [Hstr Hdone].
      split; [done|]. intros [?|(w0 & c0 & Hw0 & Hc0)]%Hdone; [by left|].
      right. destruct (decide (w0 = w)) as [->|].
      + exists w, c1. split; [by apply list_lookup_insert_eq|].
        apply Hpend. by simplify_eq.
      + exists w0, c0. by rewrite list_lookup_insert_ne. }
  assert (∀ st1 c1 r t t1,
    workers st1 = <[w:=c1]> (workers st) →
    holds c = Some r → objects st !! r = Some t →
    objects st1 = <[r:=t1]> (objects st) →
    failed_tasks st1 = failed_tasks st → name t1 = name t →
    (∀ r0, in_except_branch c1 = Some r0 → in_except_branch c = Some r0) →
    (∀ x, result_of c1 = Some x → result_of c = Some x) →
    (in_except_branch c = Some r ∨
     retries t1 = retries t ∧ (status t1 = status t ∨ status t1 ≠ Failed)) →
    (status t1 = Completed →
     (status t = Completed ∧ result t1 = result t ∧
      result_pending c = None) ∨
     (∃ res, result t1 = Some res ∧ result_of c = Some (r, res)) ∨
     result_pending c1 = Some r) →
    BuiltIn st1) as Hupd.
  { intros st1 c1 r t t1 Ew Hh Ht Eobj Efailed Hname Hexc Hres Hstr Hdone.
    assert (r < length (objects st)) as Hrlt by (by eapply lookup_lt_Some).
    assert (∀ r0 t0, objects st1 !! r0 = Some t0 →
              ∃ t', objects st !! r0 = Some t' ∧ name t0 = name t') as Hnm.
    { intros r0 t0. rewrite Eobj.
      intros [(<- & <- & _)|[_ ?]]%list_lookup_insert_Some; eauto. }
    split; rewrite ?Ew, ?Efailed; try done.
    - intros w0 c0 r0 t0 Hw0 Hc0 (t' & Ht' & ->)%Hnm.
      apply list_lookup_insert_Some in Hw0 as [(_ & <- & _)|[_ Hw0]];
        eauto.
    - intros w0 c0 r0 res t0 Hw0 Hc0 (t' & Ht' & ->)%Hnm.
      apply list_lookup_insert_Some in Hw0 as [(_ & <- & _)|[_ Hw0]];
        eauto.
    - intros r0 t0. rewrite Eobj.
      intros [(<- & <- & _)|[Hne Ht0]]%list_lookup_insert_Some.
      + destruct (Htasks r t Ht) as [Hold Hres0]. rewrite Hname. split.
        * intros Hs. destruct Hstr as [Hc|[-> Hst]].
          { pose proof (Hworkers w c r t Hw Hc Ht). congruence. }
          destruct (Hold Hs) as [? ?]. split; [done|].
          destruct Hst as [->|?]; done.
        * intros [(Hc & -> & Hnp)|[(res & -> & Hr)|Hp]]%Hdone.
          -- destruct (Hres0 Hc) as [?|(w0 & c0 & Hw0 & Hc0)]; [by left|].
             right. exists w0, c0. split; [|done].
             rewrite list_lookup_insert_ne; [done|].
             intros <-. rewrite Hw in Hw0. injection Hw0 as <-. congruence.
          -- left. exists res. split; [done|]. by eapply Hcomplete.
          -- right. exists w, c1. split; [|done].
             by apply list_lookup_insert_eq.
      + destruct (Htasks r0 t0 Ht0) as [Hold Hres0]. split; [done|].
        intros [?|(w0 & c0 & Hw0 & Hc0)]%Hres0; [by left|].
        right. exists w0, c0. split; [|done].
        rewrite list_lookup_insert_ne; [done|].
        intros <-. rewrite Hw in Hw0. injection Hw0 as <-.
        apply result_pending_holds in Hc0. congruence. }
  step_cases Hstep; rewrite Hw in Hwk; injection Hwk as ->;
    try (eapply Hsame; [reflexivity|reflexivity|simpl; by eauto
                       |simpl; by eauto|simpl; by eauto|done]; fail);
    try (eapply (Hupd _ _ tr tk);
         [reflexivity|reflexivity|exact Htk|reflexivity|reflexivity
         |reflexivity|simpl; by eauto|simpl; by eauto|simpl; by eauto
         |simpl; by eauto 10]; fail).
  - (* the call of the body returns *)
    eapply Hsame; [reflexivity|reflexivity|simpl; by eauto|done| |done].
    simpl. intros r0 res0 [= <- <-]. right. exists tk. split; [done|].
    by exists tk, rnd.
  - (* the call of the body raises: the name is not a string *)
    eapply Hsame; [reflexivity|reflexivity|simpl; by eauto| |done|done].
    simpl. intros r0 [= <-]. right. exists tk. split; [done|].
    destruct (is_str (name tk)) eqn:Hs; [|done].
    destruct (execute_task_returns tk rnd Hs) as [res Hres]. congruence.
  - (* line 112 *)
    eapply Hsame; [reflexivity|reflexivity| |simpl; by eauto|done|done].
    simpl. intros d [?| ->]%elem_of_deque_append; [by left|].
    right. by exists tr, tk.
Qed.

Lemma BuiltIn_step st ev st' :
  Inv st → BuiltIn st → step execute_task st ev = Some st' → BuiltIn st'.
Proof.
  intros HI HB. destruct ev as [dt|nm p d| |w rnd]; simpl.
  - case_bool_decide; [|done]. intros [= <-]. by destruct HB.
  - intros [= <-]. by apply BuiltIn_add_task.
  - intros [= <-]. by destruct HB.
  - intros Hw%worker_function_step. by eapply BuiltIn_worker_step.
Qed.

Lemma BuiltIn_run evs st st' :
  Inv st → BuiltIn st → run execute_task st evs = Some st' → BuiltIn st'.
Proof.
  revert st. induction evs as [|ev evs IH]; intros st HI HB; simpl.
  - by intros [= <-].
  - destruct (step execute_task st ev) as [st1|] eqn:Hstep; [|done]. simpl.
    apply IH; [by eapply Inv_step|by eapply BuiltIn_step].
Qed.

Lemma BuiltIn_reachable n st : reachable execute_task n st → BuiltIn st.
Proof.
  intros [evs Hrun].
  eapply BuiltIn_run; [apply Inv_initial|apply BuiltIn_initial|done].
Qed.

Lemma last_drop {A} (l : list A) k : k < length l → last (drop k l) = last l.
Proof.
  revert k. induction l as [|x l IH]; intros [|k] Hk; simpl in *;
    [lia|lia|done|].
  rewrite IH by lia. destruct l; [simpl in *; lia|done].
Qed.

(** The element appended to a deque that can hold something is its last
    element. *)
Lemma last_deque_append {A} maxlen (d : list A) x :
  0 < maxlen → last (deque_append maxlen d x) = Some x.
Proof.
  intros Hmax. unfold deque_append.
  rewrite last_drop by (rewrite length_app; simpl; lia).
  apply last_snoc.
Qed.

(** The claim that a task whose name selects none of the named bodies ends
    [Failed] without any retry. *)
Definition unknown_name_fails : Prop :=
  ∀ n st r t nm,
    reachable execute_task n st → objects st !! r = Some t →
    name t = PyStr nm → known_name nm = false → idle st r →
    status t = Failed ∧ retries t = 0%Z.

(** One worker and the task ["echo"], which no named body matches. *)
Definition echo_events : list event :=
  Submit (PyStr "echo") 1 0 :: replicate 15 (Work 0 0).

Definition echo_state : State := outcome execute_task 1 echo_events.

Definition echo_task : Task :=
  set_result "Executed: echo"
    (set_completed_at 0
       (set_status Completed
          (set_worker_id 0
             (set_started_at 0
                (set_status Running
                   (Task_init "task_1_0" (PyStr "echo") 1 (Some 0%Z) 0)))))).

Lemma echo_state_reachable : reachable execute_task 1 echo_state.
Proof. exists echo_events. by vm_compute. Qed.

Lemma echo_state_task : objects echo_state !! 0 = Some echo_task.
Proof. by vm_compute. Qed.

Lemma echo_state_idle : idle echo_state 0.
Proof.
  split.
  - vm_compute. apply not_elem_of_nil.
  - intros w c. replace (workers echo_state) with [AtLoop] by (by vm_compute).
    by intros [-> <-]%list_lookup_singleton_Some.
Qed.

(** C3, counterexample: the task ["echo"] falls into the default branch of
    [execute_task], which returns; the task ends [Completed]. *)
Lemma unknown_name_succeeds : ¬ unknown_name_fails.
Proof.
  intros Hclaim.
  destruct (Hclaim 1 echo_state 0 echo_task "echo" echo_state_reachable
              echo_state_task eq_refl eq_refl echo_state_idle)
    as [Hfailed _].
  discriminate Hfailed.
Qed.

(** C3: there is no registry of handlers; a name that selects none of the
    ten named bodies runs the default body, which returns
    ["Executed: <name>"].  Such a task is never retried, never in the
    [except] branch (so never requeued by the retry path) and never
    [Failed]; once nothing is left to do for it, it is [Completed] with
    that result. *)
Theorem unknown_name_completes n st r t nm :
  reachable execute_task n st → objects st !! r = Some t →
  name t = PyStr nm → known_name nm = false →
  (∀ rnd, execute_task t rnd = Returns ("Executed: " +:+ nm)) ∧
  retries t = 0%Z ∧ status t ≠ Failed ∧
  (∀ w c, workers st !! w = Some c → in_except_branch c ≠ Some r) ∧
  (∀ w p, workers st !! w ≠ Some (AtRequeue p r)) ∧
  (idle st r →
   status t = Completed ∧ result t = Some ("Executed: " +:+ nm)).
Proof.
  intros Hreach Ht Hname Hunknown.
  pose proof (Inv_reachable _ _ _ Hreach) as HI.
  pose proof (BuiltIn_reachable _ _ Hreach) as HB.
  assert (is_str (name t) = true) as Hs by (by rewrite Hname).
  destruct (bi_tasks st HB r t Ht) as [Hstr Hdone].
  destruct (Hstr Hs) as [Hret Hstat].
  assert (∀ w c, workers st !! w = Some c → in_except_branch c ≠ Some r)
    as Hnever.
  { intros w c Hw Hc. pose proof (bi_workers st HB w c r t Hw Hc Ht).
    congruence. }
  split_and!; try done.
  - intros rnd. by apply execute_task_default.
  - intros w p Hw. by eapply (Hnever w (AtRequeue p r)).
  - intros [Hq Hw].
    assert (status t = Completed) as Hc.
    { destruct (inv_idle_ok st HI r t Ht Hq) as [[? _]|[? _]]; [|done..].
      intros w c Hw' Hc%owns_holds. by eapply Hw. }
    split; [done|].
    destruct (Hdone Hc) as [(res & -> & t0 & rnd & Hname0 & Hres)|
                            (w & c & Hw' & Hc'%result_pending_holds)].
    + rewrite (execute_task_default t0 rnd nm) in Hres by congruence.
      by injection Hres as <-.
    + by destruct (Hw w c Hw').
Qed.

Lemma unknown_name_completes_witness :
  (∀ rnd, execute_task echo_task rnd = Returns ("Executed: " +:+ "echo")) ∧
  retries echo_task = 0%Z ∧ status echo_task ≠ Failed ∧
  (∀ w c, workers echo_state !! w = Some c → in_except_branch c ≠ Some 0) ∧
  (∀ w p, workers echo_state !! w ≠ Some (AtRequeue p 0)) ∧
  (idle echo_state 0 →
   status echo_task = Completed ∧
   result echo_task = Some ("Executed: " +:+ "echo")).
Proof.
  apply (unknown_name_completes 1 echo_state 0 echo_task "echo").
  - exists echo_events. by vm_compute.
  - by vm_compute.
  - by vm_compute.
  - by vm_compute.
Defined.

(** The claim that the built-in body returns for every task, so that with
    the built-in bodies no worker is ever in the [except] branch and
    nothing is ever appended to the failed store. *)
Definition builtin_bodies_always_return : Prop :=
  ∀ n st,
    reachable execute_task n st →
    (∀ r t rnd, objects st !! r = Some t →
       ∃ res, execute_task t rnd = Returns res) ∧
    (∀ w c, workers st !! w = Some c → in_except_branch c = None) ∧
    failed_tasks st = [].

(** One worker and a task submitted with the name [None]:
    [add_task(None)] is accepted like any other call. *)
Definition unnamed_events : list event :=
  Submit PyNone 5 0 :: replicate 50 (Work 0 0).

Definition unnamed_state : State := outcome execute_task 1 unnamed_events.

Lemma unnamed_state_reachable : reachable execute_task 1 unnamed_state.
Proof. exists unnamed_events. by vm_compute. Qed.

(** C10, counterexample: for the name [None] the test
    ['backup' in task_type] of line 126 raises [TypeError]; the worker
    takes the [except] branch three times and the task ends in the failed
    store. *)
Lemma none_name_fails : ¬ builtin_bodies_always_return.
Proof.
  intros Hclaim.
  destruct (Hclaim 1 unnamed_state unnamed_state_reachable)
    as (_ & _ & Hfailed).
  vm_compute in Hfailed. discriminate Hfailed.
Qed.

(** C10: the built-in body returns for every name that is a string.  So
    with the built-in bodies a task whose name is a string is never in the
    hands of a worker that stands in the [except] branch, is never retried
    or [Failed] and never enters the failed store; the call of its body
    leads to the completion block, and the completion block appends the
    task to the completed store.  Only names that are not strings, for
    which the test of line 126 raises, take the failure path. *)
Theorem builtin_bodies_never_fail n st :
  reachable execute_task n st →
  (∀ t rnd, is_str (name t) = true →
     ∃ res, execute_task t rnd = Returns res) ∧
  (∀ t rnd, is_str (name t) = false →
     ∃ e, execute_task t rnd = Raises e) ∧
  (∀ d, d ∈ failed_tasks st → is_str (d_name d) = false) ∧
  (∀ w c r t, workers st !! w = Some c → in_except_branch c = Some r →
     objects st !! r = Some t → is_str (name t) = false) ∧
  (∀ r t, objects st !! r = Some t → is_str (name t) = true →
     retries t = 0%Z ∧ status t ≠ Failed ∧
     (idle st r → status t = Completed)) ∧
  (∀ w p r t rnd,
     workers st !! w = Some (AtExecute p r) → objects st !! r = Some t →
     is_str (name t) = true →
     ∃ st' res,
       worker_function execute_task w rnd st = Some st' ∧
       workers st' !! w = Some (AtComplete p r res)) ∧
  (∀ w p r res rnd, workers st !! w = Some (AtAppend p r res) →
     ∃ st' t,
       worker_function execute_task w rnd st = Some st' ∧
       objects st' !! r = Some t ∧ status t = Completed ∧
       failed_tasks st' = failed_tasks st ∧
       last (completed_tasks st')
       = Some {| c_task := to_dict t; c_result := res; c_worker := w |}).
Proof.
  intros Hreach.
  pose proof (Inv_reachable _ _ _ Hreach) as HI.
  pose proof (BuiltIn_reachable _ _ Hreach) as HB.
  assert (∀ w c r, workers st !! w = Some c → holds c = Some r →
                   is_Some (objects st !! r)) as Hobj.
  { intros w c r Hw Hc. apply lookup_lt_is_Some.
    by eapply (inv_workers_wf st HI w). }
  split_and!.
  - apply execute_task_returns.
  - apply execute_task_raises.
  - apply (bi_failed st HB).
  - apply (bi_workers st HB).
  - intros r t Ht Hs. destruct (bi_tasks st HB r t Ht) as [Hstr _].
    destruct (Hstr Hs) as [Hret Hstat].
    split_and!; [done..|]. intros [Hq Hw].
    destruct (inv_idle_ok st HI r t Ht Hq) as [[? _]|[? _]]; [|done..].
    intros w c Hw' Hc%owns_holds. by eapply Hw.
  - intros w p r t rnd Hw Ht Hs.
    destruct (execute_task_returns t rnd Hs) as [res Hres].
    eexists _, res. split.
    + apply worker_step_function. by eapply ws_execute_returns.
    + simpl. apply list_lookup_insert_eq. by eapply lookup_lt_Some.
  - intros w p r res rnd Hw. destruct (Hobj w _ r Hw eq_refl) as [t Ht].
    exists (goto w (AtFinally p r)
              (set_completed_tasks
                 (deque_append 1000 (completed_tasks st)
                    {| c_task := to_dict t; c_result := res;
                       c_worker := w |}) st)), t.
    split_and!.
    + apply worker_step_function. by eapply ws_append.
    + done.
    + by destruct (inv_owner_ok st HI w _ r t Hw eq_refl Ht).
    + done.
    + simpl. apply last_deque_append. lia.
Qed.

Lemma builtin_bodies_never_fail_witness :
  (∀ d, d ∈ failed_tasks unnamed_state → is_str (d_name d) = false) ∧
  (∀ r t, objects echo_state !! r = Some t → is_str (name t) = true →
     retries t = 0%Z ∧ status t ≠ Failed ∧
     (idle echo_state r → status t = Completed)).
Proof.
  split.
  - pose proof (builtin_bodies_never_fail 1 unnamed_state) as Hthm.
    destruct Hthm as (_ & _ & Hfailed & _); [|done].
    exists unnamed_events. by vm_compute.
  - pose proof (builtin_bodies_never_fail 1 echo_state) as Hthm.
    destruct Hthm as (_ & _ & _ & _ & Htasks & _); [|done].
    exists echo_events. by vm_compute.
Defined.

(** ** Priority and retries *)

(** The worker has counted the failure (line 106) and has not yet lowered
    the priority (line 109): it stands at the test of line 108 or at line
    109. *)
Definition testing (c : pc) : option ref :=
  match c with
  | AtRetryTest _ r | AtLower _ r => Some r
  | _ => None
  end.

Lemma testing_owns c r : testing c = Some r → owns c = Some r.
Proof. by destruct c. Qed.

(** How the priority of task [r], submitted with priority [p], follows its
    count of retries: line 109 lowers it once per failure that is followed
    by a requeue, so the failure that exhausts the retries does not lower
    it; between line 106 and line 109 the count is one step ahead. *)
Record Tracked (r : ref) (p : Z) (st : State) : Prop := {
  tr_object : is_Some (objects st !! r);
  tr_testing : ∀ w c t,
    workers st !! w = Some c → testing c = Some r →
    objects st !! r = Some t →
    priority t = Z.max 1 (p - (retries t - 1));
  tr_settled : ∀ t,
    objects st !! r = Some t →
    (∀ w c, workers st !! w = Some c → testing c ≠ Some r) →
    priority t = Z.max 1 (p - Z.min (retries t) 2);
}.

Lemma Tracked_submitted nm p d st :
  Inv st → (1 ≤ p)%Z →
  Tracked (length (objects st)) p (add_task nm p d st).2.
Proof.
  intros HI Hp. split; simpl.
  - rewrite lookup_app_r, Nat.sub_diag by lia. by eexists.
  - intros w c t Hw Hc%testing_owns%owns_holds _.
    pose proof (inv_workers_wf st HI w _ _ Hw Hc). lia.
  - rewrite lookup_app_r, Nat.sub_diag by lia. intros t [= <-] _. simpl. lia.
Qed.

Lemma Tracked_add_task r p0 nm p d st :
  Tracked r p0 st → Tracked r p0 (add_task nm p d st).2.
Proof.
  intros [[t0 Ht0] Htest Hset].
  assert (∀ t, (objects st ++
      [Task_init (make_task_id (task_counter st + 1) (clock st)) nm p
         (Some (clock st + d)%Z) (clock st)]) !! r = Some t →
    objects st !! r = Some t) as Hold.
  { intros t. rewrite lookup_app_l by (by eapply lookup_lt_Some). done. }
  split; simpl; eauto.
  exists t0. by apply lookup_app_l_Some.
Qed.

Lemma Tracked_worker_step h w rnd r p st st' :
  Inv st → Tracked r p st → worker_step h w rnd st st' → Tracked r p st'.
Proof.
  intros HI [[t0 Ht0] Htest Hset] Hstep.
  destruct (worker_step_frame _ _ _ _ _ Hstep) as (c & c' & Hw & Ew & Hframe).
  assert (w < length (workers st)) as Hwlt by (by eapply lookup_lt_Some).
  assert (r < length (objects st)) as Hrlt by (by eapply lookup_lt_Some).
  pose proof (inv_owner_ok st HI w c r t0 Hw) as Hok.
  assert (∀ st1 c1 t1,
    workers st1 = <[w:=c1]> (workers st) → objects st1 !! r = Some t1 →
    (testing c1 = Some r → testing c = Some r) →
    (testing c = Some r → testing c1 = Some r) →
    retries t1 = retries t0 → priority t1 = priority t0 →
    Tracked r p st1) as Hkeep.
  { intros st1 c1 t1 Ew1 Ht1 Hc1 Hc Hret Hprio. split; rewrite ?Ew1, ?Ht1.
    - by eexists.
    - intros w0 c0 ? [(_ & <- & _)|[_ Hw0]]%list_lookup_insert_Some Hc0
        [= <-]; rewrite Hret, Hprio.
      + eapply (Htest w c); eauto.
      + by eapply Htest.
    - intros ? [= <-] Hno. rewrite Hret, Hprio. apply Hset; [done|].
      intros w0 c0 Hw0 Hc0. destruct (decide (w0 = w)) as [->|].
      + rewrite Hw in Hw0. injection Hw0 as <-.
        eapply (Hno w c1); [by apply list_lookup_insert_eq|eauto].
      + eapply (Hno w0 c0); [by rewrite list_lookup_insert_ne|done]. }
  destruct (decide (holds c = Some r ∨ holds c' = Some r)) as [Hinv|Hother].
  2:{ assert (holds c ≠ Some r ∧ holds c' ≠ Some r) as [Hc Hc'] by tauto.
      destruct (Hframe r Hc Hc') as [Eobj _].
      eapply (Hkeep _ c' t0); [done|by rewrite Eobj| | |done..].
      - by intros ?%testing_owns%owns_holds.
      - by intros ?%testing_owns%owns_holds. }
  clear Hframe.
  assert (workers st' !! w = Some c') as Hw'.
  { rewrite Ew. by apply list_lookup_insert_eq. }
  assert (∀ w0 c0, workers st !! w0 = Some c0 → testing c0 = Some r →
                   owns c = Some r → w0 = w) as Huniq.
  { intros w0 c0 Hw0 Hc0%testing_owns Hc.
    by eapply (inv_owner_unique st HI w0 w). }
  destruct (inv_ids st HI r t0 Ht0) as [Hmax _].
  step_cases Hstep;
    simpl in Hw'; rewrite list_lookup_insert_eq in Hw' by done;
    rewrite Hw in Hwk; injection Hwk as ->; injection Hw' as <-;
    simpl in Hinv;
    first [ assert (tr = r) as -> by (by destruct Hinv as [[= ->]|[= ->]])
          | by destruct Hinv ];
    clear Hinv;
    try (rewrite Ht0 in Htk; injection Htk as <-);
    try (eapply Hkeep;
         [reflexivity
         |simpl; first [exact Ht0|by apply list_lookup_insert_eq]
         |done|done|done|done]; fail);
    specialize (Hok eq_refl Ht0); simpl in Hok.
  - (* line 106: one more retry, the priority is not yet lowered *)
    assert (priority t0 = Z.max 1 (p - Z.min (retries t0) 2)) as Hprio.
    { apply Hset; [done|]. intros w0 c0 Hw0 Hc0.
      rewrite (Huniq w0 c0 Hw0 Hc0 eq_refl) in Hw0.
      rewrite Hw in Hw0. by injection Hw0 as <-. }
    split; simpl; rewrite ?list_lookup_insert_eq by done.
    + by eexists.
    + intros w0 c0 ? _ _ [= <-]. simpl. lia.
    + intros ? _ Hno. destruct (Hno w (AtRetryTest pk r)); [|done].
      by apply list_lookup_insert_eq.
  - (* line 108, no retry left: the priority stays as it is *)
    pose proof (Htest w _ t0 Hw eq_refl Ht0) as Hprio.
    split; simpl; rewrite ?Ht0.
    + by eexists.
    + intros w0 c0 ? [(_ & <- & _)|[Hne Hw0]]%list_lookup_insert_Some Hc0;
        [done|].
      destruct Hne. symmetry. by eapply Huniq.
    + intros ? [= <-] _. lia.
  - (* line 109: the retry lowers the priority *)
    pose proof (Htest w _ t0 Hw eq_refl Ht0) as Hprio.
    split; simpl; rewrite ?list_lookup_insert_eq by done.
    + by eexists.
    + intros w0 c0 ? [(_ & <- & _)|[Hne Hw0]]%list_lookup_insert_Some Hc0;
        [done|].
      destruct Hne. symmetry. by eapply Huniq.
    + intros ? [= <-] _. simpl. lia.
Qed.

Lemma Tracked_step h r p st ev st' :
  Inv st → Tracked r p st → step h st ev = Some st' → Tracked r p st'.
Proof.
  intros HI HT. destruct ev as [dt|nm p0 d| |w rnd]; simpl.
  - case_bool_decide; [|done]. intros [= <-]. by destruct HT.
  - intros [= <-]. by apply Tracked_add_task.
  - intros [= <-]. by destruct HT.
  - intros Hw%worker_function_step. by eapply Tracked_worker_step.
Qed.

Lemma Tracked_run h r p evs st st' :
  Inv st → Tracked r p st → run h st evs = Some st' → Tracked r p st'.
Proof.
  revert st. induction evs as [|ev evs IH]; intros st HI HT; simpl.
  - by intros [= <-].
  - destruct (step h st ev) as [st1|] eqn:Hstep; [|done]. simpl.
    apply IH; [by eapply Inv_step|by eapply Tracked_step].
Qed.

(** The priority of a task changes at line 109 only, where it becomes
    [max(1, priority - 1)]. *)
Lemma priority_step h st ev st' r t t' :
  step h st ev = Some st' →
  objects st !! r = Some t → objects st' !! r = Some t' →
  priority t' = priority t ∨
  (priority t' = Z.max 1 (priority t - 1) ∧
   ∃ w rnd k, ev = Work w rnd ∧ workers st !! w = Some (AtLower k r)).
Proof.
  intros Hstep Ht. destruct ev as [dt|nm p d| |w rnd]; simpl in Hstep.
  - case_bool_decide; [|done]. injection Hstep as <-. simpl.
    rewrite Ht. intros [= <-]. by left.
  - injection Hstep as <-. simpl.
    rewrite lookup_app_l by (by eapply lookup_lt_Some).
    rewrite Ht. intros [= <-]. by left.
  - injection Hstep as <-. simpl. rewrite Ht. intros [= <-]. by left.
  - apply worker_function_step in Hstep.
    step_cases Hstep;
      simpl; try (rewrite Ht; intros [= <-]; by left);
      (intros [(<- & <- & _)|[_ Ht']]%list_lookup_insert_Some;
       [|rewrite Ht in Ht'; injection Ht' as <-; by left]);
      rewrite Ht in Htk; injection Htk as <-; simpl; eauto 10.
Qed.

(** The claim that the priority of a task submitted with priority [p] is
    [max(1, p - retries)] at every point of its life. *)
Definition priority_follows_retries : Prop :=
  ∀ h n evs1 st1 nm p d evs2 st2 t,
    run h (initial_state n) evs1 = Some st1 →
    run h (add_task nm p d st1).2 evs2 = Some st2 →
    objects st2 !! length (objects st1) = Some t →
    priority t = Z.max 1 (p - retries t).

(** C7, counterexample: the task of priority 5 whose body always raises
    ends with [retries = 3] and priority 3, not [max(1, 5 - 3) = 2]: the
    third failure is not followed by line 109. *)
Lemma priority_after_last_failure : ¬ priority_follows_retries.
Proof.
  intros Hclaim.
  specialize (Hclaim failing_body 1 [] (initial_state 1) (PyStr "job") 5%Z 0%Z
                (replicate 50 (Work 0 0)) failed_state failed_task).
  discriminate Hclaim; by vm_compute.
Qed.

(** C7: for a task submitted with a priority [p] of at least 1, the
    priority stays between 1 and [p] and equals
    [max(1, p - min(retries, max_retries - 1))]: each failure that is
    followed by a requeue lowers it by one, the failure that exhausts the
    retries does not (between line 106 and line 109, that is, at the test
    of line 108 and before the assignment of line 109, the retry being
    processed is not yet counted).  A step changes the priority at line 109
    only, and never raises it. *)
Theorem priority_floor h n evs1 st1 nm p d evs2 st2 t :
  run h (initial_state n) evs1 = Some st1 →
  run h (add_task nm p d st1).2 evs2 = Some st2 →
  objects st2 !! length (objects st1) = Some t →
  (1 ≤ p)%Z →
  (1 ≤ priority t ≤ p)%Z ∧
  ((∀ w c, workers st2 !! w = Some c →
           testing c ≠ Some (length (objects st1))) →
   priority t = Z.max 1 (p - Z.min (retries t) (max_retries t - 1))) ∧
  (∀ w c, workers st2 !! w = Some c →
          testing c = Some (length (objects st1)) →
   priority t = Z.max 1 (p - (retries t - 1))) ∧
  (∀ ev st3 t', step h st2 ev = Some st3 →
     objects st3 !! length (objects st1) = Some t' →
     (priority t' ≤ priority t)%Z ∧
     (priority t' ≠ priority t →
      ∃ w rnd k, ev = Work w rnd ∧
        workers st2 !! w = Some (AtLower k (length (objects st1))))).
Proof.
  intros Hrun1 Hrun2 Ht Hp.
  assert (Inv st1) as HI1 by (eapply Inv_run; [apply Inv_initial|done]).
  assert (Inv st2) as HI2 by (eapply Inv_run; [by apply Inv_add_task|done]).
  pose proof (Tracked_run h _ p _ _ _ (Inv_add_task nm p d st1 HI1)
                (Tracked_submitted nm p d st1 HI1 Hp) Hrun2) as HT.
  destruct (inv_ids st2 HI2 _ t Ht) as [Hmax _].
  pose proof (retries_bound st2 _ t HI2 Ht) as Hret.
  set (r := length (objects st1)) in *.
  assert ((1 ≤ priority t ≤ p)%Z) as Hbound.
  { destruct (decide (Exists (λ c, testing c = Some r) (workers st2)))
      as [Hw|Hw].
    - apply Exists_exists in Hw as (c & [w Hw]%list_elem_of_lookup & Hc).
      pose proof (tr_testing r p st2 HT w c t Hw Hc Ht).
      pose proof (inv_owner_ok st2 HI2 w c r t Hw (testing_owns _ _ Hc) Ht)
        as Hok.
      destruct c; simplify_eq/=; destruct Hok; lia.
    - assert (priority t = Z.max 1 (p - Z.min (retries t) 2)); [|lia].
      apply (tr_settled r p st2 HT t Ht). intros w c Hw' Hc.
      apply Hw, Exists_exists. eexists.
      split; [by eapply list_elem_of_lookup_2|done]. }
  split; [done|]. split; [|split].
  - intros Hno. rewrite Hmax. by apply (tr_settled r p st2 HT).
  - intros w c Hw Hc. by apply (tr_testing r p st2 HT w c).
  - intros ev st3 t' Hstep Ht'.
    destruct (priority_step h st2 ev st3 r t t' Hstep Ht Ht')
      as [->|[-> Hev]]; split; try done; lia.
Qed.

Lemma priority_floor_witness :
  (1 ≤ priority failed_task ≤ 5)%Z ∧
  ((∀ w c, workers failed_state !! w = Some c → testing c ≠ Some 0) →
   priority failed_task
   = Z.max 1 (5 - Z.min (retries failed_task)
                          (max_retries failed_task - 1))).
Proof.
  pose proof (priority_floor failing_body 1 [] (initial_state 1)
                (PyStr "job") 5 0 (replicate 50 (Work 0 0)) failed_state
                failed_task) as Hthm.
  destruct Hthm as (Hbound & Hsettled & _).
  - by vm_compute.
  - by vm_compute.
  - by vm_compute.
  - lia.
  - by split.
Defined.

(** ** A root that is not yet eligible *)



Lemma run_work h w rnd st st1 evs :
  worker_step h w rnd st st1 →
  run h st (Work w rnd :: evs) = run h st1 evs.
Proof. intros Hstep%worker_step_function. simpl. by rewrite Hstep. Qed.






(** One worker and two tasks: ["late"] with priority 1 is due in five
    seconds, ["now"] with priority 5 is due at once. *)
Definition starved_events : list event :=
  [Submit (PyStr "late") 1 5000000; Submit (PyStr "now") 5 0].

Definition starved_state : State := outcome execute_task 1 starved_events.








(** * Further properties of the scheduler *)

(** ** Identifiers *)

(** Two task objects never share an identifier, and the identifier that
    [add_task] is about to return is not in use. *)
Theorem task_ids_unique h n st :
  reachable h n st →
  (∀ r1 r2 t1 t2,
     objects st !! r1 = Some t1 → objects st !! r2 = Some t2 →
     task_id t1 = task_id t2 → r1 = r2) ∧
  (∀ nm p d r t,
     objects st !! r = Some t → task_id t ≠ (add_task nm p d st).1).
Proof.
  intros HI%Inv_reachable. split.
  - intros r1 r2 t1 t2 Ht1 Ht2 Hid.
    destruct (inv_ids st HI r1 t1 Ht1) as [_ [now1 Hnow1]].
    destruct (inv_ids st HI r2 t2 Ht2) as [_ [now2 Hnow2]].
    rewrite Hnow1, Hnow2 in Hid. apply make_task_id_inj in Hid. lia.
  - intros nm p d r t Ht Hid. simpl in Hid.
    destruct (inv_ids st HI r t Ht) as [_ [now Hnow]].
    rewrite Hnow, (inv_counter st HI) in Hid.
    apply make_task_id_inj in Hid. apply lookup_lt_Some in Ht. lia.
Qed.

Lemma task_ids_unique_witness :
  (∀ r1 r2 t1 t2,
     objects starved_state !! r1 = Some t1 →
     objects starved_state !! r2 = Some t2 →
     task_id t1 = task_id t2 → r1 = r2) ∧
  (∀ nm p d r t,
     objects starved_state !! r = Some t →
     task_id t ≠ (add_task nm p d starved_state).1).
Proof.
  apply (task_ids_unique execute_task 1 starved_state).
  exists starved_events. by vm_compute.
Defined.

(** ** One place for each task *)

(** A task has at most one entry in the queue.  While a worker is between
    line 78, where it takes the task, and the statement that gives it back
    or ends the attempt (lines 81, 101, 110 and 112), the task has no entry
    in the queue and no other worker is in that span with it. *)
Theorem task_in_one_place h n st :
  reachable h n st →
  NoDup (task_queue st).*2 ∧
  (∀ w c r, workers st !! w = Some c → owns c = Some r →
     (r ∉ (task_queue st).*2) ∧
     (∀ w' c', workers st !! w' = Some c' → owns c' = Some r → w' = w)).
Proof.
  intros HI%Inv_reachable. split; [apply (inv_queue_nodup st HI)|].
  intros w c r Hw Hc. split; [by eapply (inv_owner_queue st HI)|].
  intros w' c' Hw' Hc'. by eapply (inv_owner_unique st HI w' w).
Qed.

Lemma task_in_one_place_witness :
  NoDup (task_queue delayed_state).*2 ∧
  (∀ w c r, workers delayed_state !! w = Some c → owns c = Some r →
     (r ∉ (task_queue delayed_state).*2) ∧
     (∀ w' c', workers delayed_state !! w' = Some c' →
               owns c' = Some r → w' = w)).
Proof.
  apply (task_in_one_place execute_task 1 delayed_state).
  exists delayed_events. by vm_compute.
Defined.

(** ** Status and retries *)

(** The worker has set the status ['failed'] (line 104) and has not yet
    counted the failure (line 106). *)
Definition counting (c : pc) : option ref :=
  match c with
  | AtError _ r _ | AtRetries _ r => Some r
  | _ => None
  end.

(** The count of retries of a task stays between 0 and [max_retries = 3],
    and it agrees with the status: a pending task has never failed, a
    running or completed one has failed fewer than [max_retries] times,
    and a failed one has failed at least once, except between lines 104
    and 106 of its first failure, where the status is set and the count is
    still 0. *)
Theorem status_and_retries h n st r t :
  reachable h n st → objects st !! r = Some t →
  max_retries t = 3%Z ∧ (0 ≤ retries t ≤ 3)%Z ∧
  (status t = Pending → retries t = 0%Z) ∧
  (status t = Running → (retries t < 3)%Z) ∧
  (status t = Completed → (retries t < 3)%Z) ∧
  (status t = Failed →
   (1 ≤ retries t)%Z ∨
   ∃ w c, workers st !! w = Some c ∧ counting c = Some r).
Proof.
  intros HI%Inv_reachable Ht.
  destruct (inv_ids st HI r t Ht) as [Hmax _].
  pose proof (retries_bound st r t HI Ht) as Hret.
  split; [done|]. split; [lia|].
  destruct (decide (r ∈ (task_queue st).*2)) as [Hq|Hq].
  { destruct (inv_queue_ok st HI r t Hq Ht) as [[? ->]|[? ->]];
      split_and!; intros; simplify_eq; first [lia|left; lia]. }
  destruct (decide (Exists (λ c, owns c = Some r) (workers st))) as [Hw|Hw].
  - apply Exists_exists in Hw as (c & [w Hw]%list_elem_of_lookup & Hc).
    pose proof (inv_owner_ok st HI w c r t Hw Hc Ht) as Hok.
    destruct c; simplify_eq/=;
      (destruct Hok as [[? ->]|[? ->]] || destruct Hok as [-> ?]);
      split_and!; intros; simplify_eq;
      first [lia|left; lia|right; eexists _, _; split; [exact Hw|done]].
  - destruct (inv_idle_ok st HI r t Ht Hq) as [[-> ?]|[-> ?]].
    + intros w c Hw' Hc. apply Hw, Exists_exists. exists c.
      split; [by eapply list_elem_of_lookup_2|done].
    + split_and!; intros; simplify_eq; first [lia|left; lia].
    + split_and!; intros; simplify_eq; first [lia|left; lia].
Qed.

(** One worker and a task whose body raises; the worker has executed line
    104 and stands before line 105. *)
Definition counting_events : list event :=
  Submit (PyStr "job") 5 0 :: replicate 9 (Work 0 0).

Definition counting_state : State := outcome failing_body 1 counting_events.

Definition counting_task : Task :=
  set_status Failed
    (set_worker_id 0
       (set_started_at 0
          (Task_init "task_1_0" (PyStr "job") 5 (Some 0%Z) 0))).

Lemma status_and_retries_witness :
  workers counting_state !! 0 = Some (AtError 5 0 "boom") ∧
  retries counting_task = 0%Z ∧
  max_retries counting_task = 3%Z ∧ (0 ≤ retries counting_task ≤ 3)%Z ∧
  (status counting_task = Pending → retries counting_task = 0%Z) ∧
  (status counting_task = Running → (retries counting_task < 3)%Z) ∧
  (status counting_task = Completed → (retries counting_task < 3)%Z) ∧
  (status counting_task = Failed →
   (1 ≤ retries counting_task)%Z ∨
   ∃ w c, workers counting_state !! w = Some c ∧ counting c = Some 0).
Proof.
  split; [by vm_compute|]. split; [done|].
  apply (status_and_retries failing_body 1 counting_state 0).
  - exists counting_events. by vm_compute.
  - by vm_compute.
Defined.

(** ** Finished tasks stay as they are *)

(** A statement hands a task to a worker only if the worker had it already
    or takes it out of the queue. *)
Lemma worker_step_holds h w rnd st st' c c' r :
  worker_step h w rnd st st' →
  workers st !! w = Some c → workers st' !! w = Some c' →
  holds c' = Some r → holds c = Some r ∨ r ∈ (task_queue st).*2.
Proof.
  intros Hstep Hw Hw'.
  assert (w < length (workers st)) as Hwlt by (by eapply lookup_lt_Some).
  step_cases Hstep;
    simpl in Hw'; rewrite list_lookup_insert_eq in Hw' by done;
    rewrite Hw in Hwk; injection Hwk as ->; injection Hw' as <-;
    simpl; try done; try (by left).
  intros [= <-]. right. apply heappop_Some in Hc as [_ ->].
  simpl. by left.
Qed.

Lemma idle_step h st ev st' r t :
  idle st r → objects st !! r = Some t → step h st ev = Some st' →
  idle st' r ∧ objects st' !! r = Some t ∧ dispatch st ev ≠ Some r.
Proof.
  intros [Hq Hw] Ht. destruct ev as [dt|nm p d| |w rnd]; simpl.
  - case_bool_decide; [|done]. by intros [= <-].
  - intros [= <-]. apply lookup_lt_Some in Ht as Hlt.
    split; [|split; [|done]].
    + split; [|done]. simpl. rewrite heappush_perm. simpl.
      apply not_elem_of_cons. split; [lia|done].
    + simpl. by apply lookup_app_l_Some.
  - by intros [= <-].
  - intros Hstep%worker_function_step.
    destruct (worker_step_frame _ _ _ _ _ Hstep) as (c & c' & Hc & Ew & Hframe).
    assert (workers st' !! w = Some c') as Hc'.
    { rewrite Ew. apply list_lookup_insert_eq. by eapply lookup_lt_Some. }
    assert (holds c' ≠ Some r) as Hnew.
    { intros Hh.
      destruct (worker_step_holds _ _ _ _ _ _ _ _ Hstep Hc Hc' Hh); [|done].
      by eapply Hw. }
    destruct (Hframe r (Hw _ _ Hc) Hnew) as [Eobj Eq].
    split; [|split].
    + split.
      * intros ([k r0] & -> & Hin)%list_elem_of_fmap. apply Hq.
        apply list_elem_of_fmap. exists (k, r0). split; [done|]. by apply Eq.
      * intros w0 c0. rewrite Ew.
        intros [(_ & <- & _)|[_ Hw0]]%list_lookup_insert_Some; eauto.
    + by rewrite Eobj.
    + rewrite Hc. destruct c; try done. intros [= ->]. by eapply Hw.
Qed.

(** Once a task is neither in the queue nor in the hands of a worker it is
    [Completed], or [Failed] with its retries exhausted, and nothing that
    happens later changes it, queues it or calls its body again. *)
Theorem finished_task_is_final h n st r t evs st' :
  reachable h n st → idle st r → objects st !! r = Some t →
  run h st evs = Some st' →
  finished t ∧ objects st' !! r = Some t ∧ idle st' r ∧
  attempts h st evs r = 0.
Proof.
  intros HI%Inv_reachable Hidle Ht Hrun. split.
  { destruct Hidle as [Hq Hw]. apply (inv_idle_ok st HI r t Ht Hq).
    intros w c Hw' Hc%owns_holds. by eapply Hw. }
  clear HI. revert st Hidle Ht Hrun.
  induction evs as [|ev evs IH]; intros st Hidle Ht; simpl.
  { by intros [= <-]. }
  destruct (step h st ev) as [st1|] eqn:Hstep; [|done]. simpl. intros Hrun.
  destruct (idle_step h st ev st1 r t Hidle Ht Hstep) as (Hidle1 & Ht1 & Hnd).
  destruct (IH st1 Hidle1 Ht1 Hrun) as (? & ? & ->).
  by rewrite decide_False.
Qed.

Lemma finished_task_is_final_witness :
  finished failed_task ∧
  objects (outcome failing_body 1 (failed_events ++ [Tick 5; Work 0 0]))
    !! 0 = Some failed_task ∧
  idle (outcome failing_body 1 (failed_events ++ [Tick 5; Work 0 0])) 0 ∧
  attempts failing_body failed_state [Tick 5; Work 0 0] 0 = 0.
Proof.
  apply (finished_task_is_final failing_body 1 failed_state 0 failed_task
           [Tick 5; Work 0 0]).
  - exists failed_events. by vm_compute.
  - apply failed_state_idle.
  - by vm_compute.
  - by vm_compute.
Defined.

(** ** The bounded stores and the pool *)

Lemma length_deque_append {A} maxlen (d : list A) x :
  length (deque_append maxlen d x) = (length d + 1) `min` maxlen.
Proof.
  unfold deque_append. rewrite length_drop, length_app. simpl. lia.
Qed.

(** The stores never exceed their capacities and the pool keeps its size. *)
Record Sized (n : nat) (st : State) : Prop := {
  sz_completed : length (completed_tasks st) ≤ 1000;
  sz_failed : length (failed_tasks st) ≤ 500;
  sz_workers : length (workers st) = n;
}.

Lemma Sized_step h n st ev st' :
  Sized n st → step h st ev = Some st' → Sized n st'.
Proof.
  intros [Hc Hf Hw]. destruct ev as [dt|nm p d| |w rnd]; simpl.
  - case_bool_decide; [|done]. by intros [= <-].
  - by intros [= <-].
  - by intros [= <-].
  - intros Hstep%worker_function_step.
    destruct Hstep; split; simpl;
      rewrite ?length_insert, ?length_deque_append; lia.
Qed.

Lemma Sized_reachable h n st : reachable h n st → Sized n st.
Proof.
  intros [evs Hrun].
  assert (Sized n (initial_state n)) as HS.
  { split; simpl; [lia..|apply length_replicate]. }
  revert HS Hrun. generalize (initial_state n).
  induction evs as [|ev evs IH]; intros st0 HS; simpl.
  - by intros [= <-].
  - destruct (step h st0 ev) as [st1|] eqn:Hstep; [|done]. simpl.
    apply IH. by eapply Sized_step.
Qed.

(** The identifiers of the tasks that workers have registered and not yet
    taken out of [running_tasks]. *)
Definition registered_ids (st : State) : list string :=
  omap (λ c, r ← registered c; task_id <$> objects st !! r) (workers st).

Lemma size_list_to_set_le (l : list string) :
  size (list_to_set (C:=gset string) l) ≤ length l.
Proof.
  induction l as [|x l IH].
  - change (size (∅ : gset string) ≤ 0). by rewrite size_empty.
  - change (size ({[x]} ∪ list_to_set l : gset string) ≤ S (length l)).
    rewrite size_union_alt, size_singleton.
    assert (size (list_to_set l ∖ {[x]} : gset string)
            ≤ size (list_to_set l : gset string)).
    { apply subseteq_size. by intros y [Hy _]%elem_of_difference. }
    lia.
Qed.

Lemma length_omap_le {A B} (f : A → option B) (l : list A) :
  length (omap f l) ≤ length l.
Proof.
  induction l as [|x l IH]; [done|].
  cbn [omap list_omap]. destruct (f x); cbn [length]; lia.
Qed.

(** What [get_stats] reports is bounded: at most 1000 completed and 500
    failed entries (the capacities of the two deques), and never more
    running tasks than there are workers. *)
Theorem stats_bounds h n st :
  reachable h n st →
  completed_count (get_stats st) ≤ 1000 ∧
  failed_count (get_stats st) ≤ 500 ∧
  running_count (get_stats st) ≤ n ∧
  length (workers st) = n.
Proof.
  intros Hreach.
  pose proof (Inv_reachable _ _ _ Hreach) as HI.
  destruct (Sized_reachable _ _ _ Hreach) as [Hc Hf Hw].
  split_and!; try done. simpl.
  rewrite <-Hw, <-size_dom.
  etrans; [|apply (length_omap_le
                     (λ c, r ← registered c; task_id <$> objects st !! r))].
  etrans; [|apply size_list_to_set_le].
  apply subseteq_size. intros id [r Hr]%elem_of_dom.
  destruct (inv_running st HI id r Hr) as [(t & Ht & Hid) (w & c & Hwc & Hc')].
  apply elem_of_list_to_set, list_elem_of_omap. exists c.
  split; [by eapply list_elem_of_lookup_2|].
  rewrite Hc'. simpl. by rewrite Ht, <-Hid.
Qed.

Lemma stats_bounds_witness :
  completed_count (get_stats requeued_state) ≤ 1000 ∧
  failed_count (get_stats requeued_state) ≤ 500 ∧
  running_count (get_stats requeued_state) ≤ 1 ∧
  length (workers requeued_state) = 1.
Proof.
  apply (stats_bounds failing_body 1 requeued_state).
  apply requeued_state_reachable.
Defined.

(** ** The count of unfinished tasks *)

(** The number of workers that have a task in hand, that is, that stand
    between the [get] of line 78 and the [task_done] of line 118. *)
Definition in_hand (ws : list pc) : nat :=
  length (filter (λ c, is_Some (holds c)) ws).

Lemma in_hand_insert ws w c c' :
  ws !! w = Some c →
  in_hand (<[w:=c']> ws) + (if decide (is_Some (holds c)) then 1 else 0)
  = in_hand ws + (if decide (is_Some (holds c')) then 1 else 0).
Proof.
  unfold in_hand. revert w.
  induction ws as [|c0 ws IH]; intros [|w] Hw; simplify_eq/=.
  - rewrite !filter_cons. repeat case_decide; simpl; lia.
  - rewrite !filter_cons. specialize (IH w Hw).
    destruct (decide (is_Some (holds c0))); simpl; lia.
Qed.

Lemma length_heappush σ (heap : list entry) item :
  length (heappush σ heap item) = S (length heap).
Proof. by rewrite heappush_perm. Qed.

Lemma length_heappop σ (heap : list entry) item heap' :
  heappop σ heap = Some (item, heap') → length heap = S (length heap').
Proof. intros [_ ->]%heappop_Some. done. Qed.

(** Every entry of the queue and every task in the hands of a worker has
    been counted by a [put] and not yet by a [task_done]; no worker thread
    has died of the [ValueError] of [task_done]. *)
Record Counted (st : State) : Prop := {
  cn_unfinished :
    (Z.of_nat (length (task_queue st) + in_hand (workers st))
     ≤ unfinished_tasks st)%Z;
  cn_alive : ∀ w, workers st !! w ≠ Some (Crashed ValueError);
}.

Lemma Counted_initial n : Counted (initial_state n).
Proof.
  split; simpl.
  - unfold in_hand. induction n as [|n IH]; simpl; [done|].
    rewrite filter_cons. by rewrite decide_False by (by intros []).
  - by intros w [? _]%lookup_replicate.
Qed.

Lemma Counted_worker_step h w rnd st st' :
  Counted st → worker_step h w rnd st st' → Counted st'.
Proof.
  intros [Hcount Halive] Hstep.
  assert (∀ c, workers st !! w = Some c → is_Some (holds c) →
               1 ≤ in_hand (workers st)) as Hpos.
  { intros c Hw Hc. pose proof (in_hand_insert _ w c AtLoop Hw) as Hins.
    rewrite decide_True, decide_False in Hins by (done || by intros []).
    lia. }
  step_cases Hstep;
    try (apply length_heappop in Hc);
    (split; simpl;
     [rewrite ?length_heappush;
      match goal with
      | |- context [in_hand (<[w:=?c']> _)] =>
          pose proof (in_hand_insert _ w _ c' Hwk) as Hins
      end;
      repeat first
        [ rewrite decide_True in Hins by (simpl; by eauto)
        | rewrite decide_False in Hins by (simpl; by intros []) ];
      try lia
     |intros w0 [(_ & ? & _)|[_ Hw0]]%list_lookup_insert_Some;
      [try done|by eapply Halive]]).
  specialize (Hpos _ Hwk ltac:(by eexists)). lia.
Qed.

Lemma Counted_step h st ev st' :
  Counted st → step h st ev = Some st' → Counted st'.
Proof.
  intros HC. destruct ev as [dt|nm p d| |w rnd]; simpl.
  - case_bool_decide; [|done]. intros [= <-]. by destruct HC.
  - intros [= <-]. destruct HC as [Hcount Halive]. split; simpl; [|done].
    rewrite length_heappush. lia.
  - intros [= <-]. by destruct HC.
  - intros Hw%worker_function_step. by eapply Counted_worker_step.
Qed.

Lemma Counted_reachable h n st : reachable h n st → Counted st.
Proof.
  intros [evs Hrun]. pose proof (Counted_initial n) as HC.
  revert HC Hrun. generalize (initial_state n).
  induction evs as [|ev evs IH]; intros st0 HC; simpl.
  - by intros [= <-].
  - destruct (step h st0 ev) as [st1|] eqn:Hstep; [|done]. simpl.
    apply IH. by eapply Counted_step.
Qed.

(** [task_done] is never called too many times: the count of unfinished
    tasks covers the entries of the queue and the tasks in the hands of
    the workers, so the call of line 118 always succeeds and no worker
    thread dies of its [ValueError].  A worker whose thread has neither
    ended nor died can always execute its next statement. *)
Theorem task_done_never_raises h n st :
  reachable h n st →
  (Z.of_nat (length (task_queue st) + in_hand (workers st))
   ≤ unfinished_tasks st)%Z ∧
  (∀ w, workers st !! w ≠ Some (Crashed ValueError)) ∧
  (∀ w p r rnd, workers st !! w = Some (AtTaskDone p r) →
     worker_function h w rnd st
     = Some (goto w AtLoop
               (set_unfinished_tasks (unfinished_tasks st - 1) st))) ∧
  (∀ w c rnd, workers st !! w = Some c → c ≠ Exited →
     (∀ e, c ≠ Crashed e) → is_Some (worker_function h w rnd st)).
Proof.
  intros Hreach.
  pose proof (Inv_reachable _ _ _ Hreach) as HI.
  destruct (Counted_reachable _ _ _ Hreach) as [Hcount Halive].
  split; [done|]. split; [done|]. split.
  - intros w p r rnd Hw. unfold worker_function. rewrite Hw. simpl.
    rewrite bool_decide_eq_false_2; [done|].
    pose proof (in_hand_insert _ w _ AtLoop Hw) as Hins.
    rewrite decide_True, decide_False in Hins
      by (simpl; by eauto || by intros []).
    lia.
  - intros w c rnd Hw Hc Hc'.
    assert (∀ r, holds c = Some r → is_Some (objects st !! r)) as Hobj.
    { intros r Hr. apply lookup_lt_is_Some.
      by eapply (inv_workers_wf st HI w). }
    unfold worker_function. rewrite Hw. simpl.
    destruct c; try done; try (by destruct (Hc' e));
      try (destruct (Hobj _ eq_refl) as [t ->]; simpl);
      repeat case_match; eauto.
Qed.

Lemma task_done_never_raises_witness :
  (Z.of_nat (length (task_queue requeued_state)
             + in_hand (workers requeued_state))
   ≤ unfinished_tasks requeued_state)%Z ∧
  (∀ w, workers requeued_state !! w ≠ Some (Crashed ValueError)) ∧
  (∀ w p r rnd, workers requeued_state !! w = Some (AtTaskDone p r) →
     worker_function failing_body w rnd requeued_state
     = Some (goto w AtLoop
               (set_unfinished_tasks
                  (unfinished_tasks requeued_state - 1) requeued_state))) ∧
  (∀ w c rnd, workers requeued_state !! w = Some c → c ≠ Exited →
     (∀ e, c ≠ Crashed e) →
     is_Some (worker_function failing_body w rnd requeued_state)).
Proof.
  apply (task_done_never_raises failing_body 1 requeued_state).
  apply requeued_state_reachable.
Defined.





(** ** Timestamps *)

(** What the timestamps of a task tell. *)
Record Timed (st : State) : Prop := {
  tm_created : ∀ r t, objects st !! r = Some t → (created_at t ≤ clock st)%Z;
  tm_started : ∀ r t s,
    objects st !! r = Some t → started_at t = Some s →
    (created_at t ≤ s ≤ clock st)%Z;
  tm_completed : ∀ r t c,
    objects st !! r = Some t → completed_at t = Some c →
    status t = Completed ∧
    ∃ s, started_at t = Some s ∧ (s ≤ c ≤ clock st)%Z;
}.

Lemma Timed_initial n : Timed (initial_state n).
Proof. by split. Qed.

Lemma Timed_step h st ev st' :
  Inv st → Gate st → Timed st → step h st ev = Some st' → Timed st'.
Proof.
  intros HI HG [Hcr Hst Hco]. destruct ev as [dt|nm p d| |w rnd]; simpl.
  - case_bool_decide; [|done]. intros [= <-]. split; simpl.
    + intros r t Ht. specialize (Hcr r t Ht). lia.
    + intros r t s Ht Hs. specialize (Hst r t s Ht Hs). lia.
    + intros r t c Ht Hc. destruct (Hco r t c Ht Hc) as (? & s & ? & ?).
      split; [done|]. exists s. split; [done|lia].
  - intros [= <-]. split; simpl.
    + intros r t [?|[_ [_ <-]%list_lookup_singleton_Some]]%lookup_app_Some;
        [by eauto|simpl; lia].
    + intros r t s [?|[_ [_ <-]%list_lookup_singleton_Some]]%lookup_app_Some;
        [by eauto|done].
    + intros r t c [?|[_ [_ <-]%list_lookup_singleton_Some]]%lookup_app_Some;
        [by eauto|done].
  - by intros [= <-].
  - intros Hstep%worker_function_step.
    pose proof (inv_owner_ok st HI w) as Hok.
    assert (∀ st1 r t t1,
      objects st !! r = Some t → clock st1 = clock st →
      objects st1 = <[r:=t1]> (objects st) →
      (created_at t1 ≤ clock st)%Z →
      (∀ s, started_at t1 = Some s → created_at t1 ≤ s ≤ clock st)%Z →
      (∀ c, completed_at t1 = Some c →
         status t1 = Completed ∧
         ∃ s, started_at t1 = Some s ∧ s ≤ c ≤ clock st)%Z →
      Timed st1) as Hupd.
    { intros st1 r t t1 Ht Eclk Eobj H1 H2 H3. split; rewrite Eclk, Eobj.
      - intros r0 t0 [(<- & <- & _)|[_ ?]]%list_lookup_insert_Some; eauto.
      - intros r0 t0 s [(<- & <- & _)|[_ ?]]%list_lookup_insert_Some; eauto.
      - intros r0 t0 c [(<- & <- & _)|[_ ?]]%list_lookup_insert_Some; eauto. }
    step_cases Hstep;
      try (by split);
      pose proof (Hok _ tr tk Hwk eq_refl Htk) as Hpc; simpl in Hpc;
      pose proof (Hcr tr tk Htk) as Hcreated;
      pose proof (Hst tr tk) as Hstarted;
      pose proof (Hco tr tk) as Hcompleted;
      (eapply (Hupd _ tr tk); [done|done|reflexivity|simpl..]); try done;
      try (intros s Hs; by apply Hstarted);
      try (intros c Hc; by apply Hcompleted).
    + (* line 85 *)
      intros c Hc. destruct (Hcompleted c Htk Hc) as [Hdone _].
      destruct Hpc as [[_ ?]|[_ ?]]; congruence.
    + (* line 86 *)
      intros s [= <-]. lia.
    + intros c Hc. destruct (Hcompleted c Htk Hc) as [Hdone _].
      destruct Hpc. congruence.
    + (* line 93 *)
      intros c Hc. destruct (Hcompleted c Htk Hc) as [Hdone _].
      destruct Hpc. congruence.
    + (* line 94 *)
      intros c [= <-]. split; [by destruct Hpc|].
      destruct (gate_marked st HG w _ tr tk Hwk eq_refl Htk) as [s Hs].
      exists s. split; [done|]. specialize (Hstarted s Htk Hs). lia.
    + (* line 104 *)
      intros c Hc. destruct (Hcompleted c Htk Hc) as [Hdone _].
      destruct Hpc. congruence.
Qed.

Lemma Timed_reachable h n st : reachable h n st → Timed st.
Proof.
  intros [evs Hrun].
  pose proof (Inv_initial n) as HI. pose proof (Gate_initial n) as HG.
  pose proof (Timed_initial n) as HT.
  revert HI HG HT Hrun. generalize (initial_state n).
  induction evs as [|ev evs IH]; intros st0 HI HG HT; simpl.
  - by intros [= <-].
  - destruct (step h st0 ev) as [st1|] eqn:Hstep; [|done]. simpl.
    apply IH; [by eapply Inv_step|by eapply Gate_step|by eapply Timed_step].
Qed.

(** The timestamps of a task are in order: it is created before it is
    started and started before it is completed, none of them lies in the
    future, only a completed task has a [completed_at], and the duration
    reported by [to_dict] is never negative. *)
Theorem timestamps_ordered h n st r t :
  reachable h n st → objects st !! r = Some t →
  (created_at t ≤ clock st)%Z ∧
  (∀ s, started_at t = Some s → created_at t ≤ s ≤ clock st)%Z ∧
  (∀ c, completed_at t = Some c →
     status t = Completed ∧
     ∃ s, started_at t = Some s ∧ (s ≤ c ≤ clock st)%Z) ∧
  (∀ d, d_duration (to_dict t) = Some d → (0 ≤ d)%Z).
Proof.
  intros [Hcr Hst Hco]%Timed_reachable Ht. split_and!; eauto.
  intros d. unfold to_dict. simpl.
  destruct (completed_at t) as [c|] eqn:Hc; [|done].
  destruct (Hco r t c Ht Hc) as (_ & s & -> & ? & _).
  case_match; [|done]. intros [= <-]. lia.
Qed.

Lemma timestamps_ordered_witness :
  (created_at echo_task ≤ clock echo_state)%Z ∧
  (∀ s, started_at echo_task = Some s →
        created_at echo_task ≤ s ≤ clock echo_state)%Z ∧
  (∀ c, completed_at echo_task = Some c →
     status echo_task = Completed ∧
     ∃ s, started_at echo_task = Some s ∧ (s ≤ c ≤ clock echo_state)%Z) ∧
  (∀ d, d_duration (to_dict echo_task) = Some d → (0 ≤ d)%Z).
Proof.
  apply (timestamps_ordered execute_task 1 echo_state 0).
  - exists echo_events. by vm_compute.
  - by vm_compute.
Defined.


(** ** The [del] of line 116 *)

(** The test of line 115 and the [del] of line 116 are two statements, and
    nothing keeps another worker from deleting the same key in between.
    When two workers stand before line 116 with the same task (one has
    requeued it at line 110, the other has taken it up, registered it again
    and finished its attempt), the first [del] succeeds and the second one
    raises [KeyError]: no handler of [worker_function] catches it, the
    thread of the second worker dies and never calls [task_done]. *)
Theorem double_del_raises h st w1 w2 p1 p2 r t rnd1 rnd2 :
  w1 ≠ w2 →
  workers st !! w1 = Some (AtDel p1 r) →
  workers st !! w2 = Some (AtDel p2 r) →
  objects st !! r = Some t → is_Some (running_tasks st !! task_id t) →
  ∃ st',
    run h st [Work w1 rnd1; Work w2 rnd2] = Some st' ∧
    workers st' !! w1 = Some (AtTaskDone p1 r) ∧
    workers st' !! w2 = Some (Crashed KeyError) ∧
    running_tasks st' !! task_id t = None ∧
    unfinished_tasks st' = unfinished_tasks st ∧
    (∀ rnd, worker_function h w2 rnd st' = None).
Proof.
  intros Hne Hw1 Hw2 Ht Hin.
  assert (w1 < length (workers st)) by (by eapply lookup_lt_Some).
  assert (w2 < length (workers st)) by (by eapply lookup_lt_Some).
  eexists. split.
  { erewrite run_work by (by eapply ws_del).
    erewrite run_work
      by (eapply ws_del_error; simpl;
          [by rewrite list_lookup_insert_ne|exact Ht|apply lookup_delete_eq]).
    reflexivity. }
  simpl. split_and!.
  - rewrite list_lookup_insert_ne by done. by apply list_lookup_insert_eq.
  - apply list_lookup_insert_eq. by rewrite length_insert.
  - apply lookup_delete_eq.
  - done.
  - intros rnd. unfold worker_function. simpl.
    by rewrite list_lookup_insert_eq by (by rewrite length_insert).
Qed.

(** Two workers and a task submitted with the name [None], for which the
    built-in body raises: worker 0 fails the first attempt and requeues the
    task, worker 1 fails the second attempt, and both pass the test of
    line 115. *)
Definition double_del_events : list event :=
  Submit PyNone 5 0 :: replicate 14 (Work 0 0) ++ replicate 14 (Work 1 0) ++
  [Work 0 0; Work 1 0].

Definition double_del_state : State := outcome execute_task 2 double_del_events.

Definition double_del_task : Task :=
  set_priority 3
    (set_retries 2
       (set_error "argument of type 'NoneType' is not iterable"
          (set_status Failed
             (set_worker_id 1
                (set_started_at 0
                   (Task_init "task_1_0" PyNone 5 (Some 0%Z) 0)))))).

Lemma double_del_state_reachable : reachable execute_task 2 double_del_state.
Proof. exists double_del_events. by vm_compute. Qed.

Lemma double_del_raises_witness :
  ∃ st',
    run execute_task double_del_state [Work 0 0; Work 1 0] = Some st' ∧
    workers st' !! 0 = Some (AtTaskDone 5 0) ∧
    workers st' !! 1 = Some (Crashed KeyError) ∧
    running_tasks st' !! task_id double_del_task = None ∧
    unfinished_tasks st' = unfinished_tasks double_del_state ∧
    (∀ rnd, worker_function execute_task 1 rnd st' = None).
Proof.
  apply (double_del_raises execute_task double_del_state 0 1 5 5 0
           double_del_task 0 0).
  - done.
  - by vm_compute.
  - by vm_compute.
  - by vm_compute.
  - exists 0. by vm_compute.
Defined.
(** ** Which names select the default body *)

Lemma prefix_spec (p s : string) :
  String.prefix p s = true ↔ ∃ post, s = p +:+ post.
Proof.
  revert p. induction s as [|b s IH]; intros [|a p]; simpl.
  - split; [|done]. intros _. by exists "".
  - split; [done|]. intros [post Hpost]. discriminate Hpost.
  - split; [|done]. intros _. by exists (String b s).
  - destruct (Ascii.ascii_dec a b) as [->|Hne].
    + rewrite IH. split; intros [post Hpost]; exists post.
      * by rewrite Hpost.
      * by injection Hpost.
    + split; [done|]. intros [post Hpost]. injection Hpost as ? ?. done.
Qed.

(** [needle in haystack] holds exactly when the needle occurs somewhere in
    the haystack. *)
Lemma contains_spec (needle haystack : string) :
  contains needle haystack = true ↔
  ∃ pre post, haystack = pre +:+ needle +:+ post.
Proof.
  induction haystack as [|a hay IH]; cbn [contains].
  - rewrite orb_false_r, prefix_spec. split.
    + intros [post Hpost]. by exists "", post.
    + intros ([|b pre] & post & Hpost); [by exists post|done].
  - rewrite orb_true_iff, prefix_spec, IH. split.
    + intros [[post Hpost]|(pre & post & ->)].
      * by exists "", post.
      * by exists (String a pre), post.
    + intros ([|b pre] & post & Hpost).
      * left. by exists post.
      * right. injection Hpost as -> ->. by exists pre, post.
Qed.

(** The keywords of [execute_task], in the order of its branches. *)
Definition keywords : list string :=
  ["backup"; "cleanup"; "sync"; "index"; "generate"; "send"; "process";
   "archive"; "validate"; "compress"].

(** For a name that is a string, [execute_task] answers
    ["Executed: <name>"] exactly when none of its ten keywords occurs in
    the name; a name that contains a keyword anywhere (["db_backup_2"],
    ["resend"]) gets the body of the first such keyword instead. *)
Theorem default_body_iff t rnd nm :
  name t = PyStr nm →
  execute_task t rnd = Returns ("Executed: " +:+ nm) ↔
  ∀ kw, kw ∈ keywords → ¬ ∃ pre post, nm = pre +:+ kw +:+ post.
Proof.
  intros Hname. split.
  - intros Hexec kw Hkw Hocc. apply contains_spec in Hocc.
    unfold execute_task in Hexec. rewrite Hname in Hexec.
    repeat (apply elem_of_cons in Hkw as [->|Hkw];
            [repeat (case_match; try discriminate Hexec); congruence|]).
    by apply elem_of_nil in Hkw.
  - intros Hnone. apply execute_task_default; [done|]. unfold known_name.
    repeat (apply orb_false_intro);
      apply not_true_is_false; intros Hocc%contains_spec;
      (eapply Hnone; [|exact Hocc]); unfold keywords;
      repeat first [apply list_elem_of_here | apply list_elem_of_further].
Qed.

Lemma default_body_iff_witness :
  execute_task echo_task 7 = Returns ("Executed: " +:+ "echo") ↔
  ∀ kw, kw ∈ keywords → ¬ ∃ pre post, "echo" = pre +:+ kw +:+ post.
Proof. by apply (default_body_iff echo_task 7 "echo"). Defined.

(** ** Generating the initial load *)

(** The names among which [generate_random_tasks] draws. *)
Definition task_names : list string :=
  ["backup_database"; "cleanup_temp"; "sync_repositories";
   "index_documents"; "generate_reports"; "send_notifications";
   "process_webhooks"; "archive_logs"; "update_search_index";
   "validate_schemas"; "compress_assets"; "scan_security";
   "optimize_images"; "cache_warmup"; "health_check"].

(** [random.choice(seq)] with the index the generator picks; an empty
    sequence raises [IndexError]. *)
Definition random_choice {A} (seq : list A) (pick : nat) : option A :=
  seq !! (pick `mod` length seq).

(** What the random generator yields in one turn of the loop: the pick of
    [random.choice], the value of [random.randint(1, 10)] and the value of
    [random.uniform(0, 5)] in clock ticks. *)
Record Draw := {
  drawn_pick : nat;
  drawn_priority : Z;
  drawn_delay : Z;
}.

(** [TaskScheduler.generate_random_tasks]: one [add_task] per draw; [count]
    is the number of draws. *)
Fixpoint generate_random_tasks (draws : list Draw) (st : State)
    : option State :=
  match draws with
  | [] => Some st
  | d :: draws' =>
      name ← random_choice task_names (drawn_pick d);
      generate_random_tasks draws'
        (add_task (PyStr name) (drawn_priority d) (drawn_delay d) st).2
  end.

(** The submissions made by [generate_random_tasks]. *)
Definition submissions (draws : list Draw) : list event :=
  omap (λ d, name ← random_choice task_names (drawn_pick d);
             Some (Submit (PyStr name) (drawn_priority d) (drawn_delay d)))
    draws.

Lemma random_choice_task_names pick :
  ∃ nm, random_choice task_names pick = Some nm ∧ nm ∈ task_names.
Proof.
  unfold random_choice.
  destruct (lookup_lt_is_Some_2 task_names (pick `mod` length task_names))
    as [nm Hnm].
  { apply Nat.mod_upper_bound. done. }
  exists nm. split; [done|]. by eapply list_elem_of_lookup_2.
Qed.

(** [generate_random_tasks] never fails and is the same as submitting the
    drawn tasks one after the other: the counter, the queue and the store
    of tasks grow by [count], and every new task is pending, has one of
    the fifteen names and the priority drawn for it. *)
Theorem generate_random_tasks_submits h draws st :
  ∃ st' new,
    generate_random_tasks draws st = Some st' ∧
    run h st (submissions draws) = Some st' ∧
    length (submissions draws) = length draws ∧
    task_counter st' = (task_counter st + Z.of_nat (length draws))%Z ∧
    length (task_queue st') = length (task_queue st) + length draws ∧
    objects st' = objects st ++ new ∧
    Forall2 (λ d t, status t = Pending ∧ retries t = 0%Z ∧
                    (∃ nm, name t = PyStr nm ∧ nm ∈ task_names) ∧
                    priority t = drawn_priority d)
      draws new.
Proof.
  revert st. induction draws as [|d draws IH]; intros st.
  { exists st, []. rewrite app_nil_r. split_and!; try done. simpl. lia. }
  destruct (random_choice_task_names (drawn_pick d)) as (nm & Hnm & Hin).
  destruct (IH (add_task (PyStr nm) (drawn_priority d) (drawn_delay d) st).2)
    as (st' & new & Hgen & Hrun & Hlen & Hcnt & Hq & Hobj & Hnew).
  eexists st', (_ :: new). split_and!.
  - simpl. by rewrite Hnm.
  - unfold submissions. cbn [omap list_omap]. rewrite Hnm. simpl. exact Hrun.
  - unfold submissions in *. cbn [omap list_omap]. rewrite Hnm. simpl.
    by rewrite Hlen.
  - rewrite Hcnt. simpl. lia.
  - rewrite Hq. simpl. rewrite length_heappush. lia.
  - rewrite Hobj. simpl. by rewrite <-app_assoc.
  - constructor; [|done]. split_and!; try done. by exists nm.
Qed.

(** ** The order of the queue entries *)

(** [a ≤ b] for queue entries: [b < a] does not hold. *)
Definition entry_le (σ : list Task) (a b : entry) : Prop :=
  entry_lt σ b a = false.

(** The task of the entry exists. *)
Definition valid_entry (σ : list Task) (e : entry) : Prop :=
  is_Some (σ !! e.2).

Lemma entry_lt_irrefl σ a : entry_lt σ a a = false.
Proof. unfold entry_lt. by rewrite !decide_True. Qed.

Lemma entry_lt_asym σ a b : entry_lt σ a b = true → entry_lt σ b a = false.
Proof.
  unfold entry_lt, task_lt. intros Hlt.
  repeat case_decide; simplify_eq; try done.
  - destruct (σ !! a.2), (σ !! b.2); try done.
    apply bool_decide_eq_true in Hlt. apply bool_decide_eq_false. lia.
  - apply bool_decide_eq_true in Hlt. apply bool_decide_eq_false. lia.
Qed.

Lemma entry_lt_trans σ a b c :
  entry_lt σ a b = true → entry_lt σ b c = true → entry_lt σ a c = true.
Proof.
  unfold entry_lt, task_lt. intros Hab Hbc.
  destruct (σ !! a.2) as [ta|] eqn:Ha, (σ !! b.2) as [tb|] eqn:Hb,
    (σ !! c.2) as [tc|] eqn:Hc;
    repeat case_decide; simplify_eq;
    rewrite ?bool_decide_eq_true in *; try done; try lia;
    try congruence.
  rewrite H6, Hc in Ha. injection Ha as <-. lia.
Qed.

(** Two entries that are not in order the one way are in order the other
    way around a third entry whose task exists. *)
Lemma entry_le_trans σ a b c :
  valid_entry σ b → entry_le σ a b → entry_le σ b c → entry_le σ a c.
Proof.
  unfold entry_le, entry_lt, task_lt. intros [tb Hb] Hab Hbc. rewrite Hb in *.
  destruct (σ !! a.2) as [ta|] eqn:Ha, (σ !! c.2) as [tc|] eqn:Hc;
    repeat case_decide; simplify_eq;
    rewrite ?bool_decide_eq_false in *; try done; try lia;
    try congruence.
  all: try (rewrite ?Ha, ?Hb, ?Hc in *; simplify_eq; lia).
Qed.

(** Python's comparison of the tuples [(priority, task)], with
    [Task.__lt__] for the ties, is a strict order: irreflexive, asymmetric
    and transitive.  Entries with the same key and tasks of the same
    priority are not ordered either way. *)
Theorem entry_lt_strict_order σ :
  (∀ a, entry_lt σ a a = false) ∧
  (∀ a b, entry_lt σ a b = true → entry_lt σ b a = false) ∧
  (∀ a b c, entry_lt σ a b = true → entry_lt σ b c = true →
            entry_lt σ a c = true) ∧
  (∀ k r1 r2 t1 t2,
     σ !! r1 = Some t1 → σ !! r2 = Some t2 → priority t1 = priority t2 →
     entry_lt σ (k, r1) (k, r2) = false ∧ entry_lt σ (k, r2) (k, r1) = false).
Proof.
  split_and!.
  - apply entry_lt_irrefl.
  - apply entry_lt_asym.
  - apply entry_lt_trans.
  - intros k r1 r2 t1 t2 H1 H2 Hp. unfold entry_lt, task_lt. simpl.
    rewrite H1, H2.
    split; repeat case_decide; try done; apply bool_decide_eq_false; lia.
Qed.

(** ** The queue is a heap *)

Lemma parent_spec i :
  2 * ((i - 1) / 2) ≤ i - 1 ∧ i - 1 < 2 * ((i - 1) / 2) + 2.
Proof.
  pose proof (Nat.div_mod_eq (i - 1) 2).
  pose proof (Nat.mod_upper_bound (i - 1) 2). lia.
Qed.

Section heap_order.
Context (σ : list Task).
Implicit Types heap : list entry.

(** Every cell is not smaller than its parent cell. *)
Definition heap_ordered heap : Prop :=
  ∀ i c p, 0 < i → heap !! i = Some c → heap !! ((i - 1) / 2) = Some p →
    entry_le σ p c.

(** The same, but for the pairs in which the cell [pos] takes part. *)
Definition ordered_off heap pos : Prop :=
  ∀ i c p, 0 < i → i ≠ pos → (i - 1) / 2 ≠ pos →
    heap !! i = Some c → heap !! ((i - 1) / 2) = Some p → entry_le σ p c.

(** The children of [pos] are not smaller than [newitem] nor than the
    parent of [pos]. *)
Definition below_ok heap pos newitem : Prop :=
  ∀ i c, 0 < i → (i - 1) / 2 = pos → heap !! i = Some c →
    entry_le σ newitem c ∧
    ∀ g, 0 < pos → heap !! ((pos - 1) / 2) = Some g → entry_le σ g c.

(** The children of [pos] are not smaller than the parent of [pos]. *)
Definition above_ok heap pos : Prop :=
  ∀ i c g, 0 < pos → 0 < i → (i - 1) / 2 = pos → heap !! i = Some c →
    heap !! ((pos - 1) / 2) = Some g → entry_le σ g c.

Lemma siftdown_loop_ordered fuel heap pos newitem heap' pos' :
  pos ≤ fuel → pos < length heap → Forall (valid_entry σ) heap →
  ordered_off heap pos → below_ok heap pos newitem →
  siftdown_loop fuel σ heap 0 pos newitem = (heap', pos') →
  heap_ordered (<[pos':=newitem]> heap').
Proof.
  revert heap pos.
  assert (∀ heap pos,
    pos < length heap → ordered_off heap pos → below_ok heap pos newitem →
    (0 < pos → ∀ p, heap !! ((pos - 1) / 2) = Some p → entry_le σ p newitem) →
    heap_ordered (<[pos:=newitem]> heap)) as Hstop.
  { intros heap pos Hpos Hoff Hbelow Habove i c p Hi Hc Hp.
    destruct (decide (i = pos)) as [->|Hne].
    - pose proof (parent_spec pos).
      rewrite list_lookup_insert_eq in Hc by done.
      rewrite list_lookup_insert_ne in Hp by lia.
      injection Hc as <-. by apply Habove.
    - rewrite list_lookup_insert_ne in Hc by done.
      destruct (decide ((i - 1) / 2 = pos)) as [Hpar|Hpar].
      + rewrite Hpar, list_lookup_insert_eq in Hp by done.
        injection Hp as <-. by destruct (Hbelow i c Hi Hpar Hc).
      + rewrite list_lookup_insert_ne in Hp by done. by eapply Hoff. }
  induction fuel as [|fuel IH]; intros heap pos Hfuel Hpos Hvalid Hoff Hbelow;
    cbn [siftdown_loop].
  { intros [= <- <-]. apply Hstop; [done..|lia]. }
  case_decide as Hlt; [|intros [= <- <-]; apply Hstop; [done..|lia]].
  pose proof (parent_spec pos) as Hpar.
  destruct (lookup_lt_is_Some_2 heap ((pos - 1) / 2)) as [parent Hparent];
    [lia|].
  rewrite Hparent.
  destruct (entry_lt σ newitem parent) eqn:Hless.
  2:{ intros [= <- <-]. apply Hstop; [done..|].
      intros _ p Hp. by simplify_eq. }
  assert (valid_entry σ parent) as Hvp.
  { eapply Forall_lookup_1; [exact Hvalid|exact Hparent]. }
  assert (entry_le σ newitem parent) as Hle by (by apply entry_lt_asym).
  apply IH; [lia|rewrite length_insert; lia| | |].
  - by apply Forall_insert.
  - intros i c p Hi Hne1 Hne2 Hc Hp.
    assert (i ≠ pos) by (intros ->; done).
    rewrite list_lookup_insert_ne in Hc by done.
    destruct (decide ((i - 1) / 2 = pos)) as [Hip|Hip].
    + rewrite Hip, list_lookup_insert_eq in Hp by done. injection Hp as <-.
      destruct (Hbelow i c Hi Hip Hc) as [_ Hg]. by apply Hg.
    + rewrite list_lookup_insert_ne in Hp by done. by eapply Hoff.
  - intros i c Hi Hip Hc.
    assert (∀ g, 0 < (pos - 1) / 2 →
              heap !! (((pos - 1) / 2 - 1) / 2) = Some g →
              entry_le σ g parent) as Hgp.
    { intros g Hpos1 Hg. pose proof (parent_spec ((pos - 1) / 2)).
      eapply (Hoff ((pos - 1) / 2)); [done|lia|lia|done..]. }
    destruct (decide (i = pos)) as [->|Hne].
    + rewrite list_lookup_insert_eq in Hc by done. injection Hc as <-.
      split; [done|]. intros g Hpos1 Hg.
      pose proof (parent_spec ((pos - 1) / 2)).
      rewrite list_lookup_insert_ne in Hg by lia. by apply Hgp.
    + rewrite list_lookup_insert_ne in Hc by done.
      assert (entry_le σ parent c) as Hpc.
      { eapply (Hoff i); [done|done|lia|done|]. by rewrite Hip. }
      split; [by eapply entry_le_trans|]. intros g Hpos1 Hg.
      pose proof (parent_spec ((pos - 1) / 2)).
      rewrite list_lookup_insert_ne in Hg by lia.
      eapply entry_le_trans; [done|by apply Hgp|done].
Qed.

Lemma heapq_siftdown_ordered heap pos :
  Forall (valid_entry σ) heap → ordered_off heap pos →
  (∀ newitem, heap !! pos = Some newitem → below_ok heap pos newitem) →
  heap_ordered (heapq_siftdown σ heap 0 pos).
Proof.
  intros Hvalid Hoff Hbelow. unfold heapq_siftdown.
  destruct (heap !! pos) as [newitem|] eqn:Hpos.
  - destruct (siftdown_loop _ _ _ _ _ _) as [heap' pos'] eqn:Hloop.
    eapply siftdown_loop_ordered; [| | | | |exact Hloop]; eauto.
    by eapply lookup_lt_Some.
  - intros i c p Hi Hc Hp. eapply Hoff; [done| | |done..].
    + intros ->. by rewrite Hpos in Hc.
    + intros E. by rewrite E, Hpos in Hp.
Qed.

Lemma heappush_ordered heap item :
  Forall (valid_entry σ) heap → valid_entry σ item → heap_ordered heap →
  heap_ordered (heappush σ heap item).
Proof.
  intros Hvalid Hitem Hord. unfold heappush.
  apply heapq_siftdown_ordered.
  - apply Forall_app. split; [done|]. by apply Forall_singleton.
  - intros i c p Hi Hne1 Hne2 Hc Hp.
    pose proof (parent_spec i).
    assert (i < length heap).
    { apply lookup_lt_Some in Hc. rewrite length_app in Hc. simpl in Hc. lia. }
    rewrite lookup_app_l in Hc, Hp by lia. by eapply Hord.
  - intros newitem _ i c Hi Hip Hc. pose proof (parent_spec i).
    apply lookup_lt_Some in Hc. rewrite length_app in Hc. simpl in Hc. lia.
Qed.

Lemma siftup_loop_ordered fuel heap pos heap' pos' :
  length heap - pos ≤ fuel → pos < length heap →
  Forall (valid_entry σ) heap → ordered_off heap pos → above_ok heap pos →
  siftup_loop fuel σ heap pos = (heap', pos') →
  Forall (valid_entry σ) heap' ∧ ordered_off heap' pos' ∧
  heap' !! (2 * pos' + 1) = None.
Proof.
  revert heap pos.
  induction fuel as [|fuel IH]; intros heap pos Hfuel Hpos Hvalid Hoff Habove;
    [lia|].
  destruct (heap !! (2 * pos + 1)) as [child|] eqn:Hchild.
  2:{ cbn [siftup_loop]. rewrite Hchild. by intros [= <- <-]. }
  assert (∃ cp c,
    (cp = 2 * pos + 1 ∨ cp = 2 * pos + 1 + 1) ∧ heap !! cp = Some c ∧
    (∀ i s, 0 < i → (i - 1) / 2 = pos → heap !! i = Some s →
       entry_le σ c s) ∧
    siftup_loop (S fuel) σ heap pos
    = siftup_loop fuel σ (<[pos:=c]> heap) cp) as (cp & c & Hcp & Hc & Hsib & ->).
  { cbn [siftup_loop]. rewrite Hchild.
    assert (∀ i, 0 < i → (i - 1) / 2 = pos →
              i = 2 * pos + 1 ∨ i = 2 * pos + 1 + 1) as Hkids.
    { intros i ? ?. pose proof (parent_spec i). lia. }
    destruct (heap !! (2 * pos + 1 + 1)) as [rchild|] eqn:Hright.
    - destruct (entry_lt σ child rchild) eqn:Hless; cbn [negb].
      + rewrite Hchild. exists (2 * pos + 1), child.
        split; [by left|]. split; [done|]. split; [|done].
        intros i s Hi Hip Hs. destruct (Hkids i Hi Hip) as [->| ->].
        * simplify_eq. apply entry_lt_irrefl.
        * simplify_eq. by apply entry_lt_asym.
      + rewrite Hright. exists (2 * pos + 1 + 1), rchild.
        split; [by right|]. split; [done|]. split; [|done].
        intros i s Hi Hip Hs. destruct (Hkids i Hi Hip) as [->| ->].
        * by simplify_eq.
        * simplify_eq. apply entry_lt_irrefl.
    - rewrite Hchild. exists (2 * pos + 1), child.
      split; [by left|]. split; [done|]. split; [|done].
      intros i s Hi Hip Hs. destruct (Hkids i Hi Hip) as [->| ->].
      + simplify_eq. apply entry_lt_irrefl.
      + by rewrite Hright in Hs. }
  assert ((cp - 1) / 2 = pos ∧ pos < cp) as [Hpar Hlt].
  { pose proof (parent_spec cp). lia. }
  apply IH.
  - rewrite length_insert. lia.
  - rewrite length_insert. by eapply lookup_lt_Some.
  - apply Forall_insert; [done|]. by eapply Forall_lookup_1.
  - intros i c0 p0 Hi Hne1 Hne2 Hc0 Hp0.
    destruct (decide (i = pos)) as [->|Hne].
    + pose proof (parent_spec pos).
      rewrite list_lookup_insert_eq in Hc0 by done. injection Hc0 as <-.
      rewrite list_lookup_insert_ne in Hp0 by lia.
      apply (Habove cp c p0); [done|lia|done..].
    + rewrite list_lookup_insert_ne in Hc0 by done.
      destruct (decide ((i - 1) / 2 = pos)) as [Hip|Hip].
      * rewrite Hip, list_lookup_insert_eq in Hp0 by done.
        injection Hp0 as <-. by apply (Hsib i).
      * rewrite list_lookup_insert_ne in Hp0 by done. by eapply Hoff.
  - intros i c0 g _ Hi Hip Hc0 Hg. pose proof (parent_spec i).
    rewrite Hpar, list_lookup_insert_eq in Hg by done. injection Hg as <-.
    rewrite list_lookup_insert_ne in Hc0 by lia.
    eapply (Hoff i); [done|lia|lia|done|]. by rewrite Hip.
Qed.

Lemma heap_ordered_take heap n :
  heap_ordered heap → heap_ordered (take n heap).
Proof.
  intros Hord i c p Hi [Hc ?]%lookup_take_Some [Hp ?]%lookup_take_Some.
  by eapply Hord.
Qed.

Lemma heappop_ordered heap item heap' :
  Forall (valid_entry σ) heap → heap_ordered heap →
  heappop σ heap = Some (item, heap') → heap_ordered heap'.
Proof.
  intros Hvalid Hord. unfold heappop.
  destruct (last heap) as [lastelt|] eqn:Hlast; [|done].
  assert (valid_entry σ lastelt) as Hvl.
  { apply last_Some in Hlast as [front ->].
    apply Forall_app in Hvalid as [_ Hv]. by inversion Hv. }
  pose proof (heap_ordered_take heap (length heap - 1) Hord) as Hord'.
  pose proof (Forall_take _ (length heap - 1) _ Hvalid) as Hvalid'.
  destruct (take (length heap - 1) heap) as [|returnitem rest] eqn:Htake.
  { intros [= <- <-]. by intros i c p _ ?. }
  intros [= <- <-]. unfold heapq_siftup. cbn [insert list_insert lookup list_lookup].
  destruct (siftup_loop _ _ _ _) as [heap1 pos1] eqn:Hloop.
  apply siftup_loop_ordered in Hloop as (Hv1 & Hoff1 & Hleaf).
  - apply heapq_siftdown_ordered.
    + apply Forall_insert; [done|done].
    + intros i c p Hi Hne1 Hne2 Hc Hp.
      rewrite list_lookup_insert_ne in Hc, Hp by done. by eapply Hoff1.
    + intros newitem _ i c Hi Hip Hc. pose proof (parent_spec i).
      destruct (decide (i = pos1)) as [->|Hne]; [lia|].
      rewrite list_lookup_insert_ne in Hc by done.
      apply lookup_lt_Some in Hc. apply lookup_ge_None in Hleaf. lia.
  - simpl. lia.
  - simpl. lia.
  - apply Forall_cons. apply Forall_cons in Hvalid' as [_ ?]. done.
  - intros i c p Hi Hne1 Hne2 Hc Hp.
    destruct i as [|i]; [lia|].
    destruct ((S i - 1) / 2) as [|j] eqn:Hj; [done|].
    apply (Hord' (S i) c p); [done|done|]. by rewrite Hj.
  - intros i c g Hpos. lia.
Qed.

(** In a heap no entry is smaller than the root. *)
Lemma heap_root_least heap root :
  Forall (valid_entry σ) heap → heap_ordered heap → heap !! 0 = Some root →
  ∀ i e, heap !! i = Some e → entry_le σ root e.
Proof.
  intros Hvalid Hord Hroot i.
  induction (lt_wf i) as [i _ IH]. intros e He.
  destruct (decide (i = 0)) as [->|Hne].
  { simplify_eq. apply entry_lt_irrefl. }
  pose proof (parent_spec i).
  destruct (lookup_lt_is_Some_2 heap ((i - 1) / 2)) as [p Hp].
  { apply lookup_lt_Some in He. lia. }
  eapply (entry_le_trans σ root p e).
  - by eapply Forall_lookup_1.
  - apply (IH ((i - 1) / 2)); [lia|done].
  - apply (Hord i); [lia|done..].
Qed.

End heap_order.

(** ** The queue of the scheduler stays a heap *)

(** A comparison of two entries reads the two task objects only. *)
Lemma entry_lt_ext σ σ' a b :
  σ' !! a.2 = σ !! a.2 → σ' !! b.2 = σ !! b.2 →
  entry_lt σ' a b = entry_lt σ a b.
Proof. unfold entry_lt, task_lt. by intros -> ->. Qed.

Lemma heap_ordered_ext σ σ' (heap : list entry) :
  (∀ e, e ∈ heap → σ' !! e.2 = σ !! e.2) →
  heap_ordered σ heap → heap_ordered σ' heap.
Proof.
  intros Hext Hord i c p Hi Hc Hp. unfold entry_le.
  rewrite (entry_lt_ext σ σ').
  - by apply (Hord i).
  - apply Hext. by eapply list_elem_of_lookup_2.
  - apply Hext. by eapply list_elem_of_lookup_2.
Qed.

Lemma valid_entry_ext σ σ' (heap : list entry) :
  (∀ e, e ∈ heap → σ' !! e.2 = σ !! e.2) →
  Forall (valid_entry σ) heap → Forall (valid_entry σ') heap.
Proof.
  intros Hext Hvalid. apply Forall_forall. intros e He.
  unfold valid_entry. rewrite (Hext e He).
  by eapply (proj1 (Forall_forall _ _) Hvalid).
Qed.

Definition Heaped (st : State) : Prop :=
  heap_ordered (objects st) (task_queue st).

Lemma Heaped_initial n : Heaped (initial_state n).
Proof. by intros i c p _ ?. Qed.

Lemma queue_valid st :
  Inv st → Forall (valid_entry (objects st)) (task_queue st).
Proof.
  intros HI. apply Forall_forall. intros e He.
  apply lookup_lt_is_Some, (inv_queue_wf st HI).
  apply list_elem_of_fmap. by exists e.
Qed.

Lemma Heaped_step h st ev st' :
  Inv st → Heaped st → step h st ev = Some st' → Heaped st'.
Proof.
  intros HI HH. pose proof (queue_valid st HI) as Hvalid.
  destruct ev as [dt|nm p d| |w rnd]; simpl.
  - case_bool_decide; [|done]. by intros [= <-].
  - intros [= <-]. unfold Heaped. simpl.
    assert (∀ e, e ∈ task_queue st →
              (objects st ++ [Task_init
                 (make_task_id (task_counter st + 1) (clock st)) nm p
                 (Some (clock st + d)%Z) (clock st)]) !! e.2
              = objects st !! e.2) as Hext.
    { intros e He. apply lookup_app_l, (inv_queue_wf st HI).
      apply list_elem_of_fmap. by exists e. }
    apply heappush_ordered.
    + by eapply valid_entry_ext.
    + unfold valid_entry. simpl. rewrite lookup_app_r, Nat.sub_diag by done.
      by eexists.
    + by eapply heap_ordered_ext.
  - by intros [= <-].
  - intros Hstep%worker_function_step.
    assert (∀ c r t, workers st !! w = Some c → owns c = Some r →
              Heaped (update_task r t st)) as Hupd.
    { intros c r t Hw Hown. unfold Heaped. simpl.
      eapply heap_ordered_ext; [|exact HH].
      intros e He. apply list_lookup_insert_ne. intros Heq. subst r.
      apply (inv_owner_queue st HI w c e.2 Hw Hown).
      apply list_elem_of_fmap. by exists e. }
    assert (∀ c r k, workers st !! w = Some c → holds c = Some r →
              Heaped (put (k, r) st)) as Hput.
    { intros c r k Hw Hholds. unfold Heaped. simpl.
      apply heappush_ordered; [done| |done].
      apply lookup_lt_is_Some. by eapply (inv_workers_wf st HI). }
    step_cases Hstep; try exact HH;
      try (by eapply (Hupd _ tr _ Hwk));
      try (by eapply (Hput _ tr pk Hwk)).
    unfold Heaped. simpl. by eapply heappop_ordered.
Qed.

Lemma Heaped_reachable h n st : reachable h n st → Heaped st.
Proof.
  intros [evs Hrun]. pose proof (Inv_initial n) as HI.
  pose proof (Heaped_initial n) as HH.
  revert HI HH Hrun. generalize (initial_state n).
  induction evs as [|ev evs IH]; intros st0 HI HH; simpl.
  - by intros [= <-].
  - destruct (step h st0 ev) as [st1|] eqn:Hstep; [|done]. simpl.
    apply IH; [by eapply Inv_step|by eapply Heaped_step].
Qed.

(** [queue.get] of line 78 hands out a least entry: no entry of the queue
    is smaller than the one taken, in the order of Python's tuples, and no
    entry has a smaller first component.  This holds in every state the
    scheduler can reach, whatever the workers have done to the tasks
    before. *)
Theorem get_takes_least h n st item q :
  reachable h n st →
  heappop (objects st) (task_queue st) = Some (item, q) →
  Forall (λ e, entry_lt (objects st) e item = false ∧ (item.1 ≤ e.1)%Z)
    (task_queue st).
Proof.
  intros Hreach Hpop. pose proof (Inv_reachable _ _ _ Hreach) as HI.
  pose proof (Heaped_reachable _ _ _ Hreach) as HH.
  apply heappop_Some in Hpop as [Hhead _].
  assert (task_queue st !! 0 = Some item) as Hroot.
  { by destruct (task_queue st); simplify_eq. }
  apply Forall_forall. intros e [i He]%list_elem_of_lookup_1.
  pose proof (heap_root_least (objects st) (task_queue st) item
                (queue_valid st HI) HH Hroot i e He) as Hle.
  split; [exact Hle|].
  unfold entry_le, entry_lt in Hle.
  case_decide as Heq; [lia|]. apply bool_decide_eq_false in Hle. lia.
Qed.

Definition sorted_events : list event :=
  [Submit (PyStr "c") 7 0; Submit (PyStr "a") 2 0; Submit (PyStr "b") 4 0;
   Submit (PyStr "d") 2 0; Work 0 0; Work 0 0].

Definition sorted_state : State := outcome execute_task 1 sorted_events.

Lemma get_takes_least_witness :
  Forall (λ e, entry_lt (objects sorted_state) e (2%Z, 3) = false ∧
               ((2%Z, 3).1 ≤ e.1)%Z)
    (task_queue sorted_state).
Proof.
  apply (get_takes_least execute_task 1 sorted_state (2%Z, 3)
           [(4%Z, 2); (7%Z, 0)]).
  - exists sorted_events. by vm_compute.
  - by vm_compute.
Defined.

(** An entry that is put into a queue comes out again, or another entry
    comes out and the queue keeps it: [get] after [put] never finds the
    queue empty and loses nothing. *)
Theorem put_then_get σ (heap : list entry) item :
  ∃ x heap', heappop σ (heappush σ heap item) = Some (x, heap') ∧
             x :: heap' ≡ₚ item :: heap.
Proof.
  destruct (heappop σ (heappush σ heap item)) as [[x heap']|] eqn:Hpop.
  - exists x, heap'. split; [done|].
    apply heappop_Some in Hpop as [_ Hperm].
    by rewrite <-Hperm, heappush_perm.
  - apply heappop_None in Hpop.
    pose proof (heappush_perm σ heap item) as Hperm.
    rewrite Hpop in Hperm. by apply Permutation_nil_cons in Hperm.
Qed.

(** ** Stopping the workers *)

(** The greatest number of statements of [worker_function] that a worker
    standing at [c] can still execute once [running] is false.  From line
    78 the longest way to the end of the loop goes through a failing
    attempt that is queued again: lines 78, 80, 85, 86, 87, 89, 92, 104,
    105, 106, 108, 109, 110, 115, 116, 118 and the test of line 76. *)
Definition statements_left (c : pc) : nat :=
  match c with
  | Exited | Crashed _ => 0
  | AtLoop => 1
  | AtEmpty | AtContinue | AtTaskDone _ _ => 2
  | AtSleep | AtDel _ _ => 3
  | AtPutBack _ _ | AtFinally _ _ => 4
  | AtRequeue _ _ | AtGiveUp _ _ | AtAppend _ _ _ => 5
  | AtLower _ _ | AtResult _ _ _ => 6
  | AtRetryTest _ _ | AtCompletedAt _ _ _ => 7
  | AtRetries _ _ | AtComplete _ _ _ => 8
  | AtError _ _ _ => 9
  | AtExcept _ _ _ => 10
  | AtExecute _ _ => 11
  | AtRegister _ _ => 12
  | AtWorkerId _ _ => 13
  | AtStarted _ _ => 14
  | AtMark _ _ => 15
  | AtCheck _ _ => 16
  | AtGet => 17
  end.

(** The number of statements that the worker [w] executes in [evs]. *)
Fixpoint turns (w : nat) (evs : list event) : nat :=
  match evs with
  | [] => 0
  | Work w' _ :: evs' => (if decide (w' = w) then 1 else 0) + turns w evs'
  | _ :: evs' => turns w evs'
  end.

Lemma stopped_step h st ev st' w c :
  running st = false → step h st ev = Some st' → workers st !! w = Some c →
  running st' = false ∧
  ∃ c', workers st' !! w = Some c' ∧
        statements_left c' + turns w [ev] ≤ statements_left c.
Proof.
  intros Hstop Hstep Hw.
  destruct ev as [dt|nm p d| |w0 rnd]; simpl in Hstep.
  - case_bool_decide; [|done]. injection Hstep as <-.
    split; [done|]. exists c. split; [done|simpl; lia].
  - injection Hstep as <-. split; [done|]. exists c. split; [done|simpl; lia].
  - injection Hstep as <-. split; [done|]. exists c. split; [done|simpl; lia].
  - apply worker_function_step in Hstep.
    assert (w < length (workers st)) as Hwlt by (by eapply lookup_lt_Some).
    cbn [turns]. destruct (decide (w0 = w)) as [->|Hne].
    + step_cases Hstep; try congruence;
        (split; [done|]); rewrite Hwk in Hw; injection Hw as <-;
        (eexists; split; [simpl; by apply list_lookup_insert_eq|simpl; lia]).
    + step_cases Hstep; try congruence;
        (split; [done|]); exists c;
        (split; [simpl; by rewrite list_lookup_insert_ne|simpl; lia]).
Qed.

(** Once [stop_workers] has cleared [running], the flag stays cleared and
    every worker executes at most [statements_left] more statements of
    [worker_function], whatever the other workers and the submitters do in
    between: it finishes the attempt at hand, takes no second task and
    leaves the loop.  In particular no worker executes more than 17
    statements. *)
Theorem stopped_worker_bound h st evs st' w c :
  running st = false → run h st evs = Some st' →
  workers st !! w = Some c →
  running st' = false ∧
  ∃ c', workers st' !! w = Some c' ∧
        statements_left c' + turns w evs ≤ statements_left c ∧
        turns w evs ≤ 17.
Proof.
  revert st c. induction evs as [|ev evs IH]; intros st c Hstop Hrun Hw.
  - injection Hrun as <-. split; [done|]. exists c.
    split; [done|]. simpl. split; [lia|]. lia.
  - apply run_cons in Hrun as (st1 & Hstep & Hrun).
    destruct (stopped_step _ _ _ _ _ _ Hstop Hstep Hw)
      as (Hstop1 & c1 & Hw1 & Hle1).
    destruct (IH st1 c1 Hstop1 Hrun Hw1) as (Hstop' & c' & Hw' & Hle' & _).
    split; [done|]. exists c'. split; [done|].
    assert (turns w (ev :: evs) = turns w [ev] + turns w evs) as ->.
    { destruct ev; simpl; lia. }
    assert (statements_left c ≤ 17) by (destruct c; simpl; lia).
    lia.
Qed.

(** One worker and a task whose body raises; [stop_workers] is called while
    the worker waits in [get] (line 78). *)
Definition stopped_events : list event :=
  [Submit (PyStr "job") 5 0; Work 0 0; Stop].

Definition stopped_state : State := outcome failing_body 1 stopped_events.

Lemma stopped_worker_bound_witness :
  running (outcome failing_body 1 (stopped_events ++ replicate 17 (Work 0 0)))
  = false ∧
  ∃ c', workers
          (outcome failing_body 1
             (stopped_events ++ replicate 17 (Work 0 0))) !! 0
        = Some c' ∧
        statements_left c' + turns 0 (replicate 17 (Work 0 0))
        ≤ statements_left AtGet ∧
        turns 0 (replicate 17 (Work 0 0)) ≤ 17.
Proof.
  apply (stopped_worker_bound failing_body stopped_state
           (replicate 17 (Work 0 0))); by vm_compute.
Defined.
